(** * smartparking: the navigation modal of [src/App.tsx]

    A shallow embedding of the [NavigationModal] component: its React state
    ([useState]), its two refs ([useRef]), and the part of the browser it
    talks to (geolocation watches, timeouts, route requests in flight).
    Every handler of the component is a function on that world; the browser
    delivering a callback is an [Event].

    JavaScript numbers are IEEE 754 doubles, here the primitive floats
    with their rounding and their comparisons. [Math.hypot], whose result
    the language leaves to the engine, is a function the browser
    provides. *)

From Stdlib Require Import Lia List String Bool PArith PrimFloat.
From Stdlib Require Import ZArith Ascii DecimalString.
Import ListNotations.

Set Warnings "-inexact-float".
Local Open Scope float_scope.

(** ** Data, as declared in the source *)

(** [maneuver.location] is the pair [[lng, lat]], longitude first. *)
Record Maneuver := {
  type : string;
  modifier : option string;
  location : float * float
}.

Record OsrmStep := {
  step_distance : float;
  step_duration : float;
  name : string;
  maneuver : Maneuver
}.

Record Leg := { steps : list OsrmStep }.

Record OsrmRoute := {
  distance : float;
  duration : float;
  coordinates : list (float * float);
  legs : list Leg
}.

(** Of [Garage] only the two fields the modal reads. *)
Record Garage := { lat : float; lng : float }.

Record NavModalProps := {
  garage : Garage;
  userLat : option float;
  userLng : option float
}.

Inductive NavMode := preview | navigating.

(** A pending [setTimeout]: its handle, its delay in milliseconds and the
    [livePos] its callback closed over. Timer handles are integers greater
    than zero, so a handle stored in a ref is always truthy. *)
Record Timeout := {
  tid : positive;
  delay : nat;
  origin : float * float
}.

(** A request sent to the route provider; the four numbers are those of the
    URL, [fromLng,fromLat;garage.lng,garage.lat]. *)
Record Request := {
  rid : positive;
  fromLat : float;
  fromLng : float;
  toLat : float;
  toLng : float
}.

(** What a request comes back with: [fetch] or [res.json()] throws, or a
    JSON body whose [routes] field may be missing. *)
Inductive FetchResult :=
| Rejected
| Resolved (routes : option (list OsrmRoute)).

Record World := {
  (* useState *)
  route : option OsrmRoute;
  routeLoading : bool;
  routeError : option string;
  navMode : NavMode;
  livePos : option (float * float);
  stepIdx : nat;
  followUser : bool;
  rerouting : bool;
  (* useRef *)
  watchRef : option positive;
  rerouteTimer : option positive;
  (* browser *)
  geolocation : bool;
  mathHypot : float -> float -> float;
  watches : list positive;
  timeouts : list Timeout;
  inflight : list Request;
  fetchLog : list Request;
  nextHandle : positive
}.

(** ** State setters *)

Definition setRoute (v : option OsrmRoute) (w : World) : World :=
  {| route := v; routeLoading := routeLoading w; routeError := routeError w;
     navMode := navMode w; livePos := livePos w; stepIdx := stepIdx w;
     followUser := followUser w; rerouting := rerouting w;
     watchRef := watchRef w; rerouteTimer := rerouteTimer w;
     geolocation := geolocation w; mathHypot := mathHypot w;
     watches := watches w;
     timeouts := timeouts w; inflight := inflight w;
     fetchLog := fetchLog w; nextHandle := nextHandle w |}.

Definition setRouteLoading (v : bool) (w : World) : World :=
  {| route := route w; routeLoading := v; routeError := routeError w;
     navMode := navMode w; livePos := livePos w; stepIdx := stepIdx w;
     followUser := followUser w; rerouting := rerouting w;
     watchRef := watchRef w; rerouteTimer := rerouteTimer w;
     geolocation := geolocation w; mathHypot := mathHypot w;
     watches := watches w;
     timeouts := timeouts w; inflight := inflight w;
     fetchLog := fetchLog w; nextHandle := nextHandle w |}.

Definition setRouteError (v : option string) (w : World) : World :=
  {| route := route w; routeLoading := routeLoading w; routeError := v;
     navMode := navMode w; livePos := livePos w; stepIdx := stepIdx w;
     followUser := followUser w; rerouting := rerouting w;
     watchRef := watchRef w; rerouteTimer := rerouteTimer w;
     geolocation := geolocation w; mathHypot := mathHypot w;
     watches := watches w;
     timeouts := timeouts w; inflight := inflight w;
     fetchLog := fetchLog w; nextHandle := nextHandle w |}.

Definition setNavMode (v : NavMode) (w : World) : World :=
  {| route := route w; routeLoading := routeLoading w;
     routeError := routeError w;
     navMode := v; livePos := livePos w; stepIdx := stepIdx w;
     followUser := followUser w; rerouting := rerouting w;
     watchRef := watchRef w; rerouteTimer := rerouteTimer w;
     geolocation := geolocation w; mathHypot := mathHypot w;
     watches := watches w;
     timeouts := timeouts w; inflight := inflight w;
     fetchLog := fetchLog w; nextHandle := nextHandle w |}.

Definition setLivePos (v : option (float * float)) (w : World)
  : World :=
  {| route := route w; routeLoading := routeLoading w;
     routeError := routeError w;
     navMode := navMode w; livePos := v; stepIdx := stepIdx w;
     followUser := followUser w; rerouting := rerouting w;
     watchRef := watchRef w; rerouteTimer := rerouteTimer w;
     geolocation := geolocation w; mathHypot := mathHypot w;
     watches := watches w;
     timeouts := timeouts w; inflight := inflight w;
     fetchLog := fetchLog w; nextHandle := nextHandle w |}.

(** [setStepIdx] takes the updater function, as [setStepIdx((i) => i + 1)]
    does; [setStepIdx(0)] is the constant updater. *)
Definition setStepIdx (f : nat -> nat) (w : World) : World :=
  {| route := route w; routeLoading := routeLoading w;
     routeError := routeError w;
     navMode := navMode w; livePos := livePos w; stepIdx := f (stepIdx w);
     followUser := followUser w; rerouting := rerouting w;
     watchRef := watchRef w; rerouteTimer := rerouteTimer w;
     geolocation := geolocation w; mathHypot := mathHypot w;
     watches := watches w;
     timeouts := timeouts w; inflight := inflight w;
     fetchLog := fetchLog w; nextHandle := nextHandle w |}.

Definition setFollowUser (v : bool) (w : World) : World :=
  {| route := route w; routeLoading := routeLoading w;
     routeError := routeError w;
     navMode := navMode w; livePos := livePos w; stepIdx := stepIdx w;
     followUser := v; rerouting := rerouting w;
     watchRef := watchRef w; rerouteTimer := rerouteTimer w;
     geolocation := geolocation w; mathHypot := mathHypot w;
     watches := watches w;
     timeouts := timeouts w; inflight := inflight w;
     fetchLog := fetchLog w; nextHandle := nextHandle w |}.

Definition setRerouting (v : bool) (w : World) : World :=
  {| route := route w; routeLoading := routeLoading w;
     routeError := routeError w;
     navMode := navMode w; livePos := livePos w; stepIdx := stepIdx w;
     followUser := followUser w; rerouting := v;
     watchRef := watchRef w; rerouteTimer := rerouteTimer w;
     geolocation := geolocation w; mathHypot := mathHypot w;
     watches := watches w;
     timeouts := timeouts w; inflight := inflight w;
     fetchLog := fetchLog w; nextHandle := nextHandle w |}.

(** ** The browser *)

(** [navigator.geolocation.watchPosition]: a fresh watch, whose handle is
    stored in [watchRef.current]. *)
Definition watchPosition (w : World) : World :=
  {| route := route w; routeLoading := routeLoading w;
     routeError := routeError w;
     navMode := navMode w; livePos := livePos w; stepIdx := stepIdx w;
     followUser := followUser w; rerouting := rerouting w;
     watchRef := Some (nextHandle w); rerouteTimer := rerouteTimer w;
     geolocation := geolocation w; mathHypot := mathHypot w;
     watches := nextHandle w :: watches w;
     timeouts := timeouts w; inflight := inflight w;
     fetchLog := fetchLog w; nextHandle := Pos.succ (nextHandle w) |}.

(** [clearWatch(watchRef.current); watchRef.current = null]. *)
Definition clearWatch (id : positive) (w : World) : World :=
  {| route := route w; routeLoading := routeLoading w;
     routeError := routeError w;
     navMode := navMode w; livePos := livePos w; stepIdx := stepIdx w;
     followUser := followUser w; rerouting := rerouting w;
     watchRef := None; rerouteTimer := rerouteTimer w;
     geolocation := geolocation w; mathHypot := mathHypot w;
     watches := filter (fun i => negb (Pos.eqb i id)) (watches w);
     timeouts := timeouts w; inflight := inflight w;
     fetchLog := fetchLog w; nextHandle := nextHandle w |}.

(** [clearTimeout(id)]; the ref keeps the stale handle. *)
Definition clearTimeout (id : positive) (w : World) : World :=
  {| route := route w; routeLoading := routeLoading w;
     routeError := routeError w;
     navMode := navMode w; livePos := livePos w; stepIdx := stepIdx w;
     followUser := followUser w; rerouting := rerouting w;
     watchRef := watchRef w; rerouteTimer := rerouteTimer w;
     geolocation := geolocation w; mathHypot := mathHypot w;
     watches := watches w;
     timeouts := filter (fun t => negb (Pos.eqb (tid t) id)) (timeouts w);
     inflight := inflight w;
     fetchLog := fetchLog w; nextHandle := nextHandle w |}.

(** [rerouteTimer.current = setTimeout(callback, ms)], the callback being
    [fetchRoute(livePos[0], livePos[1])] for the captured [livePos]. *)
Definition setTimeout (pos : float * float) (ms : nat) (w : World)
  : World :=
  {| route := route w; routeLoading := routeLoading w;
     routeError := routeError w;
     navMode := navMode w; livePos := livePos w; stepIdx := stepIdx w;
     followUser := followUser w; rerouting := rerouting w;
     watchRef := watchRef w; rerouteTimer := Some (nextHandle w);
     geolocation := geolocation w; mathHypot := mathHypot w;
     watches := watches w;
     timeouts :=
       {| tid := nextHandle w; delay := ms; origin := pos |} :: timeouts w;
     inflight := inflight w;
     fetchLog := fetchLog w; nextHandle := Pos.succ (nextHandle w) |}.

(** [fetch(url)]: the request is in flight and logged. *)
Definition fetch (g : Garage) (fLat fLng : float) (w : World) : World :=
  let q := {| rid := nextHandle w; fromLat := fLat; fromLng := fLng;
              toLat := lat g; toLng := lng g |} in
  {| route := route w; routeLoading := routeLoading w;
     routeError := routeError w;
     navMode := navMode w; livePos := livePos w; stepIdx := stepIdx w;
     followUser := followUser w; rerouting := rerouting w;
     watchRef := watchRef w; rerouteTimer := rerouteTimer w;
     geolocation := geolocation w; mathHypot := mathHypot w;
     watches := watches w;
     timeouts := timeouts w; inflight := q :: inflight w;
     fetchLog := q :: fetchLog w; nextHandle := Pos.succ (nextHandle w) |}.

(** A timeout fired or a request settled: it leaves the browser's list. *)
Definition dropTimeout (id : positive) (w : World) : World :=
  clearTimeout id w.

Definition dropRequest (id : positive) (w : World) : World :=
  {| route := route w; routeLoading := routeLoading w;
     routeError := routeError w;
     navMode := navMode w; livePos := livePos w; stepIdx := stepIdx w;
     followUser := followUser w; rerouting := rerouting w;
     watchRef := watchRef w; rerouteTimer := rerouteTimer w;
     geolocation := geolocation w; mathHypot := mathHypot w;
     watches := watches w;
     timeouts := timeouts w;
     inflight := filter (fun q => negb (Pos.eqb (rid q) id)) (inflight w);
     fetchLog := fetchLog w; nextHandle := nextHandle w |}.

(** ** Geometry *)

(** The three distances of the [livePos] effect, each as the source writes
    it: the differences and the product are double operations, and
    [hypot] is the engine's [Math.hypot]. [livePos] is [[lat, lng]]; a
    maneuver location is [[lng, lat]]. *)
Definition destDist (hypot : float -> float -> float)
           (g : Garage) (livePos : float * float) : float :=
  (hypot (fst livePos - lat g) (snd livePos - lng g) * 111000)%float.

Definition maneuverDist (hypot : float -> float -> float)
           (livePos : float * float) (s : OsrmStep) : float :=
  let '(sLng, sLat) := location (maneuver s) in
  (hypot (fst livePos - sLat) (snd livePos - sLng) * 111000)%float.

(** ** The component *)

Definition hasInitLoc (p : NavModalProps) : bool :=
  match userLat p, userLng p with
  | Some _, Some _ => true
  | _, _ => false
  end.

(** [data.routes?.[0]]. *)
Definition routes0 (data : option (list OsrmRoute)) : option OsrmRoute :=
  match data with
  | Some (r :: _) => Some r
  | _ => None
  end.

(** [route.legs[0]?.steps ?? []]. *)
Definition stepsOf (r : OsrmRoute) : list OsrmStep :=
  match legs r with
  | l :: _ => steps l
  | [] => []
  end.

(** [fetchRoute] up to its first [await]. *)
Definition fetchRoute (g : Garage) (fLat fLng : float) (w : World)
  : World :=
  fetch g fLat fLng (setRouteError None (setRouteLoading true w)).

(** [fetchRoute] from the [await] on: the [try] body or the [catch], then
    the [finally]. *)
Definition fetchRoute_settled (res : FetchResult) (w : World) : World :=
  let w1 :=
    match res with
    | Resolved data =>
        match routes0 data with
        | Some r => setStepIdx (fun _ => 0%nat) (setRoute (Some r) w)
        | None => setRouteError (Some "No route found"%string) w
        end
    | Rejected => setRouteError (Some "Could not load route"%string) w
    end in
  setRerouting false (setRouteLoading false w1).

Definition stopWatch (w : World) : World :=
  let w1 := match watchRef w with
            | Some id => clearWatch id w
            | None => w
            end in
  match rerouteTimer w1 with
  | Some id => clearTimeout id w1
  | None => w1
  end.

Definition startNavigation (w : World) : World :=
  let w1 := setFollowUser true (setNavMode navigating w) in
  if geolocation w1 then watchPosition w1 else w1.

Definition stopNavigation (w : World) : World :=
  setFollowUser false (setNavMode preview (stopWatch w)).

(** [onRecenter={() => setFollowUser(true)}]. *)
Definition onRecenter (w : World) : World := setFollowUser true w.

(** The body of [if (offRoute > 120)]: [setRerouting(true)], the old timer
    cleared, a new one set for 1500 ms. *)
Definition armReroute (pos : float * float) (w : World) : World :=
  let w2 := setRerouting true w in
  setTimeout pos 1500
    match rerouteTimer w2 with
    | Some id => clearTimeout id w2
    | None => w2
    end.

(** The effect with dependency [[livePos]].  It reads [route], [navMode],
    [stepIdx] and [rerouting] of the render it belongs to, which is [w]. *)
Definition livePosEffect (g : Garage) (w : World) : World :=
  match livePos w, route w, navMode w with
  | Some pos, Some r, navigating =>
      let steps := stepsOf r in
      if (destDist (mathHypot w) g pos <? 25)%float then
        setNavMode preview (stopWatch w)
      else
        let w1 :=
          match nth_error steps (stepIdx w + 1) with
          | Some nextStep =>
              if (maneuverDist (mathHypot w) pos nextStep <? 35)%float
              then setStepIdx (fun i => (i + 1)%nat) w
              else w
          | None => w
          end in
        match nth_error steps (stepIdx w) with
        | Some curStep =>
            if negb (rerouting w) then
              if (120 <? maneuverDist (mathHypot w) pos curStep)%float
              then armReroute pos w1
              else w1
            else w1
        | None => w1
        end
  | _, _, _ => w
  end.

(** The [watchPosition] success callback, and the render it causes. *)
Definition onPosition (g : Garage) (newPos : float * float) (w : World)
  : World :=
  livePosEffect g (setLivePos (Some newPos) w).

(** The first render and its effects: [useState] initial values, then
    [if (hasInitLoc) fetchRoute(initLat, initLng)]. *)
Definition mount (p : NavModalProps) (geo : bool)
           (hypot : float -> float -> float) : World :=
  let w0 :=
    {| route := None; routeLoading := false; routeError := None;
       navMode := preview;
       livePos := match userLat p, userLng p with
                  | Some la, Some lo => Some (la, lo)
                  | _, _ => None
                  end;
       stepIdx := 0; followUser := true; rerouting := false;
       watchRef := None; rerouteTimer := None;
       geolocation := geo; mathHypot := hypot;
       watches := []; timeouts := []; inflight := [];
       fetchLog := []; nextHandle := 1%positive |} in
  match userLat p, userLng p with
  | Some la, Some lo => fetchRoute (garage p) la lo w0
  | _, _ => w0
  end.

(** ** Events *)

Inductive Event :=
| ClickStart
| ClickStop
| ClickRecenter
| Position (newPos : float * float)
| TimerFires (id : positive)
| FetchSettles (id : positive) (res : FetchResult).

Definition isSome {A} (o : option A) : bool :=
  match o with Some _ => true | None => false end.

Definition isNavigating (w : World) : bool :=
  match navMode w with navigating => true | preview => false end.

(** An event happens only where the page lets it: a button that is rendered
    and enabled, a watch that is active, a timeout that is pending, a
    request that is in flight. Closing the modal unmounts the component
    and ends the run; it is not an event here. *)
Definition step (p : NavModalProps) (w : World) (e : Event) : option World :=
  match e with
  | ClickStart =>
      if negb (isNavigating w) && isSome (route w) && hasInitLoc p
      then Some (startNavigation w) else None
  | ClickStop =>
      if isNavigating w && isSome (route w)
      then Some (stopNavigation w) else None
  | ClickRecenter =>
      if isSome (livePos w) || hasInitLoc p
      then Some (onRecenter w) else None
  | Position newPos =>
      match watches w with
      | _ :: _ => Some (onPosition (garage p) newPos w)
      | [] => None
      end
  | TimerFires id =>
      match find (fun t => Pos.eqb (tid t) id) (timeouts w) with
      | Some t =>
          Some (fetchRoute (garage p) (fst (origin t)) (snd (origin t))
                  (dropTimeout id w))
      | None => None
      end
  | FetchSettles id res =>
      match find (fun q => Pos.eqb (rid q) id) (inflight w) with
      | Some _ => Some (fetchRoute_settled res (dropRequest id w))
      | None => None
      end
  end.

Fixpoint run (p : NavModalProps) (w : World) (es : list Event)
  : option World :=
  match es with
  | [] => Some w
  | e :: es' =>
      match step p w e with
      | Some w' => run p w' es'
      | None => None
      end
  end.

Definition reachable (p : NavModalProps) (w : World) : Prop :=
  exists geo hypot es, run p (mount p geo hypot) es = Some w.

(** A run of consecutive position callbacks, nothing else in between. *)
Definition runFixes (g : Garage) (fixes : list (float * float))
           (w : World) : World :=
  fold_left (fun w' pos => onPosition g pos w') fixes w.

(** ** The specification's vocabulary *)

(** The specification's three session modes, and the one a world shows:
    [navMode] has only two values, so no world shows [Arrived]. *)
Inductive SessionMode := Preview | Navigating | Arrived.

Definition sessionMode (w : World) : SessionMode :=
  match navMode w with
  | preview => Preview
  | navigating => Navigating
  end.

(** ** A concrete trip

    The garage lies 0.001 degrees (111 m) east of the user; the route has a
    depart step at the user and an arrive step at the garage. *)

Definition garage0 : Garage := {| lat := 0; lng := 0.001 |}%float.

(** A [Math.hypot] to run the trip with: the square root of the sum of the
    squares, in doubles. *)
Definition hypot0 (x y : float) : float :=
  PrimFloat.sqrt (x * x + y * y)%float.

Definition props0 : NavModalProps :=
  {| garage := garage0; userLat := Some 0; userLng := Some 0 |}.

Definition depart0 : OsrmStep :=
  {| step_distance := 111; step_duration := 20; name := "Main St"%string;
     maneuver := {| type := "depart"%string; modifier := None;
                    location := (0, 0) |} |}.

Definition arrive0 : OsrmStep :=
  {| step_distance := 0; step_duration := 0; name := "Main St"%string;
     maneuver := {| type := "arrive"%string; modifier := None;
                    location := (0.001, 0) |} |}.

Definition route0 : OsrmRoute :=
  {| distance := 111; duration := 20;
     coordinates := [(0, 0); (0.001, 0)];
     legs := [ {| steps := [depart0; arrive0] |} ] |}.

(** A second route, as a reroute may return it. *)
Definition route1 : OsrmRoute :=
  {| distance := 333; duration := 60;
     coordinates := [(-0.002, 0); (0.001, 0)];
     legs := [ {| steps := [depart0; arrive0] |} ] |}.

(** A route whose only leg has no steps. *)
Definition routeNoSteps : OsrmRoute :=
  {| distance := 0; duration := 0; coordinates := [];
     legs := [ {| steps := [] |} ] |}.

(** 1.11 m, 29.97 m and 333 m from the garage; the last is 222 m from the
    depart maneuver. *)
Definition fixNear : float * float := (0, 0.00099).
Definition fixNextStep : float * float := (0, 0.00073).
Definition fixFar : float * float := (0, -0.002).

(** Mounted, first route loaded, navigation started, gone off route, timer
    fired, stopped. *)
Definition wLoaded : World :=
  fetchRoute_settled (Resolved (Some [route0]))
    (dropRequest 1 (mount props0 true hypot0)).

Definition wNav : World := startNavigation wLoaded.

Definition wArmed : World :=
  armReroute fixFar (setLivePos (Some fixFar) wNav).

Definition wFetching : World :=
  fetchRoute garage0 (fst fixFar) (snd fixFar) (dropTimeout 3 wArmed).

Definition wStopped : World := stopNavigation wFetching.

(** * The catalogue helpers of [src/App.tsx]

    ** Strings

    A string is the list of its code units, here the code units below
    256 (Latin-1). [toLowerCase] and the class [\s] are exact on that
    range. *)

Definition inRange (lo hi : nat) (c : ascii) : bool :=
  (lo <=? nat_of_ascii c)%nat && (nat_of_ascii c <=? hi)%nat.

(** [A-Z], and the capital letters of Latin-1 ([U+00D7] is the
    multiplication sign). *)
Definition isUpper (c : ascii) : bool :=
  inRange 65 90 c || (inRange 192 222 c && negb (nat_of_ascii c =? 215)%nat).

Definition toLowerChar (c : ascii) : ascii :=
  if isUpper c then ascii_of_nat (nat_of_ascii c + 32) else c.

Fixpoint toLowerCase (s : string) : string :=
  match s with
  | EmptyString => EmptyString
  | String c s' => String (toLowerChar c) (toLowerCase s')
  end.

(** [\s]: tab, line feed, vertical tab, form feed, carriage return, space,
    no-break space. *)
Definition isSpace (c : ascii) : bool :=
  inRange 9 13 c || (nat_of_ascii c =? 32)%nat || (nat_of_ascii c =? 160)%nat.

(** [s.replace(/\s+/g, '-')]: every maximal run of white space becomes one
    hyphen. [inRun] says that the previous character was white space. *)
Fixpoint replaceSpaceRuns (inRun : bool) (s : string) : string :=
  match s with
  | EmptyString => EmptyString
  | String c s' =>
      if isSpace c then
        if inRun then replaceSpaceRuns true s'
        else String "-" (replaceSpaceRuns true s')
      else String c (replaceSpaceRuns false s')
  end.

(** [[a-z0-9-]]. *)
Definition isSlugChar (c : ascii) : bool :=
  inRange 97 122 c || inRange 48 57 c || (nat_of_ascii c =? 45)%nat.

(** [s.replace(/[^a-z0-9-]/g, '')]. *)
Fixpoint removeNonSlugChars (s : string) : string :=
  match s with
  | EmptyString => EmptyString
  | String c s' =>
      if isSlugChar c then String c (removeNonSlugChars s')
      else removeNonSlugChars s'
  end.

Definition slugify (name : string) : string :=
  removeNonSlugChars (replaceSpaceRuns false (toLowerCase name)).

Fixpoint allChars (P : ascii -> bool) (s : string) : bool :=
  match s with
  | EmptyString => true
  | String c s' => P c && allChars P s'
  end.

(** [String(n)] and [`${n}`] for an integer [n]. *)
Definition showZ (n : Z) : string := NilZero.string_of_int (Z.to_int n).

(** ** The API types of [src/types.ts] *)

Module ApiBuildingSpot.
Record t := {
  id : Z;
  floor_id : Z;
  spot_number : string;
  is_occupied : Z;
  camera_url : option string;
  last_update : string
}.
End ApiBuildingSpot.

Module ApiParkingSpot.
Record t := {
  id : Z;
  floor_id : Z;
  spot_number : string;
  is_occupied : Z;
  camera_url : option string;
  last_update : string;
  floor_name : string
}.
End ApiParkingSpot.

Module ApiFloor.
Record t := {
  id : Z;
  building_id : Z;
  floor_name : string;
  total_capacity : Z;
  parking_spots : list ApiBuildingSpot.t
}.
End ApiFloor.

Module ApiBuilding.
Record t := {
  id : Z;
  building_name : string;
  address : string;
  total_floors : Z;
  created_at : string;
  latitude : float;
  longitude : float;
  floors : list ApiFloor.t;
  apiUrl : option string
}.
End ApiBuilding.

Module ApiBuildingsResponse.
Record t := {
  status : string;
  count : Z;
  buildings : list ApiBuilding.t
}.
End ApiBuildingsResponse.

Module ApiParkingResponse.
Record t := {
  status : string;
  count : Z;
  available_count : Z;
  occupied_count : Z;
  parking_spots : list ApiParkingSpot.t
}.
End ApiParkingResponse.

Module FloorData.
Record t := {
  level : string;
  status : string;
  progress : Z;
  colorClass : string * string * string
}.
End FloorData.

(** [FacilityData], without its [icon]. *)
Module FacilityData.
Record t := {
  label : string;
  status : string;
  colorClass : string * string
}.
End FacilityData.

(** The whole [Garage] of [types.ts]; the modal's [Garage] above is its
    two coordinates. *)
Module GarageData.
Record t := {
  id : string;
  slug : string;
  name : string;
  address : string;
  distance : string;
  slotsAvailable : Z;
  pricePerHour : string;
  isFull : bool;
  floors : list FloorData.t;
  facilities : list FacilityData.t;
  lat : float;
  lng : float;
  apiUrl : option string
}.
End GarageData.

Definition garageOf (g : GarageData.t) : Garage :=
  {| lat := GarageData.lat g; lng := GarageData.lng g |}.

(** ** Buildings API helpers *)

(** A number used as a condition: [is_occupied] is 0 or 1. *)
Definition truthy (n : Z) : bool := negb (n =? 0)%Z.

(** [{ ...spot, floor_name }]. *)
Definition withFloorName (fname : string) (spot : ApiBuildingSpot.t)
  : ApiParkingSpot.t :=
  {| ApiParkingSpot.id := ApiBuildingSpot.id spot;
     ApiParkingSpot.floor_id := ApiBuildingSpot.floor_id spot;
     ApiParkingSpot.spot_number := ApiBuildingSpot.spot_number spot;
     ApiParkingSpot.is_occupied := ApiBuildingSpot.is_occupied spot;
     ApiParkingSpot.camera_url := ApiBuildingSpot.camera_url spot;
     ApiParkingSpot.last_update := ApiBuildingSpot.last_update spot;
     ApiParkingSpot.floor_name := fname |}.

(** The three nested [for] loops of [normalizeBuildingsResponse]. *)
Definition collectSpots (bs : list ApiBuilding.t) : list ApiParkingSpot.t :=
  flat_map
    (fun building =>
       flat_map
         (fun floor =>
            map (withFloorName (ApiFloor.floor_name floor))
                (ApiFloor.parking_spots floor))
         (ApiBuilding.floors building))
    bs.

Definition normalizeBuildingsResponse (data : ApiBuildingsResponse.t)
  : ApiParkingResponse.t :=
  let allSpots := collectSpots (ApiBuildingsResponse.buildings data) in
  let occupied :=
    List.length
      (filter (fun s => truthy (ApiParkingSpot.is_occupied s)) allSpots) in
  {| ApiParkingResponse.status := ApiBuildingsResponse.status data;
     ApiParkingResponse.count := Z.of_nat (List.length allSpots);
     ApiParkingResponse.available_count :=
       (Z.of_nat (List.length allSpots) - Z.of_nat occupied)%Z;
     ApiParkingResponse.occupied_count := Z.of_nat occupied;
     ApiParkingResponse.parking_spots := allSpots |}.

(** [buildingToGarage]. [haversineDistance] is floating-point trigonometry
    printed with [toFixed]; it is taken as a parameter. *)
Definition buildingToGarage
           (haversineDistance : float -> float -> float -> float -> string)
           (b : ApiBuilding.t) (userLat userLng : option float)
  : GarageData.t :=
  let allSpots := flat_map ApiFloor.parking_spots (ApiBuilding.floors b) in
  let occupied :=
    List.length
      (filter (fun s => truthy (ApiBuildingSpot.is_occupied s)) allSpots) in
  let available := (Z.of_nat (List.length allSpots) - Z.of_nat occupied)%Z in
  let dist :=
    match userLat, userLng with
    | Some uLat, Some uLng =>
        haversineDistance uLat uLng
          (ApiBuilding.latitude b) (ApiBuilding.longitude b)
    | _, _ => "Unknown"%string
    end in
  {| GarageData.id := showZ (ApiBuilding.id b);
     GarageData.slug := slugify (ApiBuilding.building_name b);
     GarageData.name := ApiBuilding.building_name b;
     GarageData.address := ApiBuilding.address b;
     GarageData.distance := dist;
     GarageData.slotsAvailable := available;
     GarageData.pricePerHour := "Free"%string;
     GarageData.isFull :=
       (0 <? List.length allSpots)%nat && (available =? 0)%Z;
     GarageData.floors := [];
     GarageData.facilities := [];
     GarageData.lat := ApiBuilding.latitude b;
     GarageData.lng := ApiBuilding.longitude b;
     GarageData.apiUrl :=
       match ApiBuilding.apiUrl b with
       | Some u => if String.eqb u "" then None else Some u
       | None => None
       end |}.

Definition buildingsToGarages
           (haversineDistance : float -> float -> float -> float -> string)
           (data : ApiBuildingsResponse.t) (userLat userLng : option float)
  : list GarageData.t :=
  map (fun b => buildingToGarage haversineDistance b userLat userLng)
      (ApiBuildingsResponse.buildings data).

(** [findGarageBySlug]; the catalogue [MOCK_BUILDINGS_DATA] (the file
    [api.json]) is the parameter [mock]. *)
Definition findGarageBySlug
           (haversineDistance : float -> float -> float -> float -> string)
           (mock : ApiBuildingsResponse.t)
           (slug : string) (userLat userLng : option float)
  : option GarageData.t :=
  match find (fun b => String.eqb (slugify (ApiBuilding.building_name b)) slug)
             (ApiBuildingsResponse.buildings mock) with
  | Some building =>
      Some (buildingToGarage haversineDistance building userLat userLng)
  | None => None
  end.

(** ** Flat-API helpers

    A JavaScript [Map] with string keys is the list of its entries in
    insertion order; [set] on a key that is present keeps its place. *)

Fixpoint mapGet {V} (k : string) (m : list (string * V)) : option V :=
  match m with
  | [] => None
  | (k', v) :: m' => if String.eqb k' k then Some v else mapGet k m'
  end.

Fixpoint mapSet {V} (k : string) (v : V) (m : list (string * V))
  : list (string * V) :=
  match m with
  | [] => [(k, v)]
  | (k', v') :: m' =>
      if String.eqb k' k then (k', v) :: m' else (k', v') :: mapSet k v m'
  end.

Module FloorCount.
Record t := { total : Z; occupied : Z }.
End FloorCount.

(** The loop of [transformApiToFloors] that fills [floorMap]. The
    percentages and labels computed from it afterwards are floating-point
    and are not modelled. *)
Definition floorMapOf (data : ApiParkingResponse.t)
  : list (string * FloorCount.t) :=
  fold_left
    (fun floorMap spot =>
       let f := match mapGet (ApiParkingSpot.floor_name spot) floorMap with
                | Some f => f
                | None => {| FloorCount.total := 0; FloorCount.occupied := 0 |}
                end in
       let f1 := {| FloorCount.total := (FloorCount.total f + 1)%Z;
                    FloorCount.occupied := FloorCount.occupied f |} in
       let f2 := if truthy (ApiParkingSpot.is_occupied spot)
                 then {| FloorCount.total := FloorCount.total f1;
                         FloorCount.occupied :=
                           (FloorCount.occupied f1 + 1)%Z |}
                 else f1 in
       mapSet (ApiParkingSpot.floor_name spot) f2 floorMap)
    (ApiParkingResponse.parking_spots data) [].

(** The [floors] of [ParkingSpotGrid]: the spots grouped by floor name. *)
Definition gridFloors (spots : list ApiParkingSpot.t)
  : list (string * list ApiParkingSpot.t) :=
  fold_left
    (fun map s =>
       let arr := match mapGet (ApiParkingSpot.floor_name s) map with
                  | Some arr => arr
                  | None => []
                  end in
       mapSet (ApiParkingSpot.floor_name s) (arr ++ [s]) map)
    spots [].

(** The spots of one floor, in the order given. *)
Definition onFloor (k : string) (spots : list ApiParkingSpot.t)
  : list ApiParkingSpot.t :=
  filter (fun s => String.eqb (ApiParkingSpot.floor_name s) k) spots.

(** ** Texts *)

Definition isAscii (c : ascii) : bool := (nat_of_ascii c <? 128)%nat.

(** [toUpperCase] of one code unit; exact on ASCII, which is what the
    modifiers of the route provider are written in. *)
Definition toUpperChar (c : ascii) : ascii :=
  if inRange 97 122 c then ascii_of_nat (nat_of_ascii c - 32) else c.

(** [modifier.replace('-', ' ')]: a string pattern replaces the first
    occurrence only. *)
Fixpoint replaceFirstHyphen (s : string) : string :=
  match s with
  | EmptyString => EmptyString
  | String c s' =>
      if Ascii.eqb c "-" then String " " s'
      else String c (replaceFirstHyphen s')
  end.

(** A string used as a condition. *)
Definition nonEmpty (s : string) : bool :=
  match s with EmptyString => false | String _ _ => true end.

Definition formatStep (step : OsrmStep) : string :=
  let name := name step in
  if String.eqb (type (maneuver step)) "depart" then
    if nonEmpty name then ("Start on " ++ name)%string
    else "Depart"%string
  else if String.eqb (type (maneuver step)) "arrive" then
    "Arrive at destination"%string
  else
    match modifier (maneuver step) with
    | Some (String c rest as m) =>
        let dir := replaceFirstHyphen m in
        let dirCap :=
          match dir with
          | EmptyString => EmptyString
          | String d dir' => String (toUpperChar d) dir'
          end in
        if nonEmpty name then (dirCap ++ " onto " ++ name)%string
        else dirCap
    | _ =>
        if nonEmpty name then ("Continue on " ++ name)%string
        else "Continue"%string
    end.

(** [timeAgo], as a function of [Date.now()] and of the time value of the
    date parsed, both whole milliseconds. *)
Definition timeAgo (now iso : Z) : string :=
  let diff := ((now - iso) / 1000)%Z in
  if (diff <? 60)%Z then (showZ diff ++ "s ago")%string
  else if (diff <? 3600)%Z then (showZ (diff / 60) ++ "m ago")%string
  else (showZ (diff / 3600) ++ "h ago")%string.

Definition DAY_NAMES : list string :=
  ["Monday"; "Tuesday"; "Wednesday"; "Thursday"; "Friday"; "Saturday";
   "Sunday"]%string.

(** [getTodayDayName], as a function of [new Date().getDay()]. *)
Definition getTodayDayName (idx : nat) : option string :=
  nth_error DAY_NAMES (if (idx =? 0)%nat then 6 else idx - 1)%nat.

(** What [getDay] means, as the source's comment has it:
    0 = Sun, 1 = Mon ... 6 = Sat. *)
Definition getDayMeaning : list string :=
  ["Sunday"; "Monday"; "Tuesday"; "Wednesday"; "Thursday"; "Friday";
   "Saturday"]%string.

(** ** The search box of the list view *)

(** [s.includes(sub)]. *)
Fixpoint includes (sub s : string) : bool :=
  String.prefix sub s ||
  match s with
  | EmptyString => false
  | String _ s' => includes sub s'
  end.

(** [filtered], for the [displayGarages] given. *)
Definition filtered (search : string) (displayGarages : list GarageData.t)
  : list GarageData.t :=
  filter
    (fun g =>
       includes (toLowerCase search) (toLowerCase (GarageData.name g)) ||
       includes (toLowerCase search) (toLowerCase (GarageData.address g)))
    displayGarages.

(** ** A concrete catalogue

    Two buildings; the first has two floors with three spots, two of them
    taken, the second has no floor. *)

Definition spotA1 : ApiBuildingSpot.t :=
  {| ApiBuildingSpot.id := 1; ApiBuildingSpot.floor_id := 1;
     ApiBuildingSpot.spot_number := "A1"; ApiBuildingSpot.is_occupied := 1;
     ApiBuildingSpot.camera_url := None;
     ApiBuildingSpot.last_update := "2026-01-01T00:00:00Z" |}.

Definition spotA2 : ApiBuildingSpot.t :=
  {| ApiBuildingSpot.id := 2; ApiBuildingSpot.floor_id := 1;
     ApiBuildingSpot.spot_number := "A2"; ApiBuildingSpot.is_occupied := 0;
     ApiBuildingSpot.camera_url := None;
     ApiBuildingSpot.last_update := "2026-01-01T00:00:00Z" |}.

Definition spotB1 : ApiBuildingSpot.t :=
  {| ApiBuildingSpot.id := 3; ApiBuildingSpot.floor_id := 2;
     ApiBuildingSpot.spot_number := "B1"; ApiBuildingSpot.is_occupied := 1;
     ApiBuildingSpot.camera_url := None;
     ApiBuildingSpot.last_update := "2026-01-01T00:00:00Z" |}.

Definition building0 : ApiBuilding.t :=
  {| ApiBuilding.id := 7; ApiBuilding.building_name := "Central  Park East #2";
     ApiBuilding.address := "1 Park Rd"; ApiBuilding.total_floors := 2;
     ApiBuilding.created_at := "2025-01-01";
     ApiBuilding.latitude := 0; ApiBuilding.longitude := 0.001;
     ApiBuilding.floors :=
       [ {| ApiFloor.id := 1; ApiFloor.building_id := 7;
            ApiFloor.floor_name := "Ground"; ApiFloor.total_capacity := 2;
            ApiFloor.parking_spots := [spotA1; spotA2] |};
         {| ApiFloor.id := 2; ApiFloor.building_id := 7;
            ApiFloor.floor_name := "Upper"; ApiFloor.total_capacity := 1;
            ApiFloor.parking_spots := [spotB1] |} ];
     ApiBuilding.apiUrl := None |}.

Definition building1 : ApiBuilding.t :=
  {| ApiBuilding.id := 8; ApiBuilding.building_name := "City Mall";
     ApiBuilding.address := "2 High St"; ApiBuilding.total_floors := 0;
     ApiBuilding.created_at := "2025-01-01";
     ApiBuilding.latitude := 1; ApiBuilding.longitude := 1;
     ApiBuilding.floors := [];
     ApiBuilding.apiUrl := None |}.

Definition mock0 : ApiBuildingsResponse.t :=
  {| ApiBuildingsResponse.status := "success";
     ApiBuildingsResponse.count := 2;
     ApiBuildingsResponse.buildings := [building0; building1] |}.

(** A stand-in for the distance text. *)
Definition hav0 (lat1 lng1 lat2 lng2 : float) : string := "1.2 km".

(** ** The invariant of the reachable worlds

    While navigating there is a route; in preview nothing is watched and
    nothing is armed; the only watch and the only pending timeout are the
    ones the refs hold; a pending timeout means [rerouting] is set and no
    request is in flight; at most one request is in flight, and once a
    route is there only while [rerouting] is set. *)

Record Inv (w : World) : Prop := {
  inv_route : navMode w = navigating -> route w <> None;
  inv_idle : navMode w = preview -> watches w = [] /\ timeouts w = [];
  inv_watch :
    watches w = match watchRef w with Some i => [i] | None => [] end;
  inv_timer :
    timeouts w = [] \/
    exists t, timeouts w = [t] /\ rerouteTimer w = Some (tid t) /\
              rerouting w = true /\ inflight w = [];
  inv_fetch : inflight w = [] \/ rerouting w = true \/ route w = None;
  inv_one : (List.length (inflight w) <= 1)%nat
}.

(** A second invariant, about what the modal shows: the loading flag is
    up exactly while a request is in flight; the step index is 0 or names
    a step of the route; every request ever sent goes to the garage;
    navigation needs an initial location; while navigating [followUser]
    is set. *)
Record Shown (p : NavModalProps) (w : World) : Prop := {
  shown_loading : routeLoading w = true <-> inflight w <> [];
  shown_step :
    forall r, route w = Some r ->
              stepIdx w = 0%nat \/
              (stepIdx w < List.length (stepsOf r))%nat;
  shown_dest :
    forall q, In q (fetchLog w) ->
              toLat q = lat (garage p) /\ toLng q = lng (garage p);
  shown_loc : navMode w = navigating -> hasInitLoc p = true;
  shown_follow : navMode w = navigating -> followUser w = true
}.

(** The [follow] prop handed to [MapController]:
    [isNavigating && followUser]. *)
Definition follow (w : World) : bool := isNavigating w && followUser w.

(** ** What [stopWatch] changes and what it keeps *)

Lemma stopWatch_keeps (w : World) :
  route (stopWatch w) = route w /\
  navMode (stopWatch w) = navMode w /\
  stepIdx (stopWatch w) = stepIdx w /\
  rerouting (stopWatch w) = rerouting w /\
  followUser (stopWatch w) = followUser w /\
  livePos (stopWatch w) = livePos w /\
  routeError (stopWatch w) = routeError w /\
  inflight (stopWatch w) = inflight w /\
  fetchLog (stopWatch w) = fetchLog w /\
  rerouteTimer (stopWatch w) = rerouteTimer w.
Proof.
  unfold stopWatch.
  destruct (watchRef w); cbn; destruct (rerouteTimer w) eqn:E; cbn;
    repeat apply conj; congruence.
Qed.

Lemma stopWatch_watchRef (w : World) : watchRef (stopWatch w) = None.
Proof.
  unfold stopWatch.
  destruct (watchRef w) eqn:E; cbn; destruct (rerouteTimer w); cbn; auto.
Qed.

Lemma stopWatch_watches (w : World) :
  watches (stopWatch w) =
  match watchRef w with
  | Some id => filter (fun i => negb (Pos.eqb i id)) (watches w)
  | None => watches w
  end.
Proof.
  unfold stopWatch.
  destruct (watchRef w); cbn; destruct (rerouteTimer w); cbn; auto.
Qed.

Lemma stopWatch_timeouts (w : World) :
  timeouts (stopWatch w) =
  match rerouteTimer w with
  | Some id => filter (fun t => negb (Pos.eqb (tid t) id)) (timeouts w)
  | None => timeouts w
  end.
Proof.
  unfold stopWatch.
  destruct (watchRef w); cbn; destruct (rerouteTimer w); cbn; auto.
Qed.

(** ** The invariant holds in every reachable world *)

Lemma Inv_mount (p : NavModalProps) (geo : bool)
      (hypot : float -> float -> float) : Inv (mount p geo hypot).
Proof.
  unfold mount.
  destruct (userLat p), (userLng p); constructor; cbn;
    auto; try discriminate; intros; auto.
Qed.

Lemma Inv_stopWatch_watches (w : World) :
  Inv w -> watches (stopWatch w) = [].
Proof.
  intros I. rewrite stopWatch_watches, (inv_watch w I).
  destruct (watchRef w); cbn; auto.
  rewrite Pos.eqb_refl. reflexivity.
Qed.

Lemma Inv_stopWatch_timeouts (w : World) :
  Inv w -> timeouts (stopWatch w) = [].
Proof.
  intros I. rewrite stopWatch_timeouts.
  destruct (inv_timer w I) as [E | (t & E & Et & _)]; rewrite E.
  - destruct (rerouteTimer w); reflexivity.
  - rewrite Et. cbn. rewrite Pos.eqb_refl. reflexivity.
Qed.

Lemma Inv_startNavigation (w : World) :
  Inv w -> navMode w = preview -> route w <> None ->
  Inv (startNavigation w).
Proof.
  intros I Hp Hr. destruct (inv_idle w I Hp) as [Hw Ht].
  pose proof (inv_fetch w I) as Hf. pose proof (inv_one w I) as Ho.
  unfold startNavigation. cbn.
  destruct (geolocation w); constructor; cbn; auto; try discriminate;
    try (rewrite Hw; reflexivity).
  apply (inv_watch w I).
Qed.

Lemma Inv_stopped (w : World) (v : bool) :
  Inv w -> Inv (setFollowUser v (setNavMode preview (stopWatch w))).
Proof.
  intros I.
  destruct (stopWatch_keeps w)
    as (Hr & _ & _ & Hre & _ & _ & _ & Hi & _ & _).
  constructor; cbn.
  - discriminate.
  - intros _. split;
      [apply Inv_stopWatch_watches | apply Inv_stopWatch_timeouts]; exact I.
  - rewrite stopWatch_watchRef. apply Inv_stopWatch_watches, I.
  - left. apply Inv_stopWatch_timeouts, I.
  - rewrite Hr, Hre, Hi. apply (inv_fetch w I).
  - rewrite Hi. apply (inv_one w I).
Qed.

Lemma Inv_stopNavigation (w : World) : Inv w -> Inv (stopNavigation w).
Proof. apply Inv_stopped. Qed.

Lemma Inv_onRecenter (w : World) : Inv w -> Inv (onRecenter w).
Proof. intros [I1 I2 I3 I4 I5 I6]. constructor; cbn; assumption. Qed.

Lemma Inv_setLivePos (v : option (float * float)) (w : World) :
  Inv w -> Inv (setLivePos v w).
Proof. intros [I1 I2 I3 I4 I5 I6]. constructor; cbn; assumption. Qed.

Lemma Inv_setStepIdx (f : nat -> nat) (w : World) :
  Inv w -> Inv (setStepIdx f w).
Proof. intros [I1 I2 I3 I4 I5 I6]. constructor; cbn; assumption. Qed.

Lemma Inv_armReroute (pos : float * float) (w : World) :
  Inv w -> navMode w = navigating -> rerouting w = false ->
  Inv (armReroute pos w).
Proof.
  intros I Hn Hr.
  assert (Ht : timeouts w = []).
  { destruct (inv_timer w I) as [E | (t & _ & _ & E & _)];
      [exact E | congruence]. }
  assert (Hi : inflight w = []).
  { destruct (inv_fetch w I) as [E | [E | E]];
      [exact E | congruence | destruct (inv_route w I Hn E)]. }
  pose proof (inv_route w I) as Hro. pose proof (inv_watch w I) as Hwa.
  unfold armReroute.
  destruct (rerouteTimer w) eqn:Et; cbn; rewrite ?Et; cbn;
    constructor; cbn; rewrite ?Ht, ?Hi; cbn; auto; try congruence;
    right; eexists; cbn; repeat apply conj; reflexivity.
Qed.

Lemma Inv_livePosEffect (g : Garage) (w : World) :
  Inv w -> Inv (livePosEffect g w).
Proof.
  intros I. unfold livePosEffect.
  destruct (livePos w) as [pos|]; [|exact I].
  destruct (route w) as [r|] eqn:Er; [|exact I].
  destruct (navMode w) eqn:En; [exact I|].
  destruct (destDist (mathHypot w) g pos <? 25).
  - apply (Inv_stopped w (followUser (stopWatch w))) in I.
    destruct I as [I1 I2 I3 I4 I5 I6]. constructor; cbn in *; assumption.
  - set (w1 := match nth_error (stepsOf r) (stepIdx w + 1) with
               | Some nextStep =>
                   if maneuverDist (mathHypot w) pos nextStep <? 35
                   then setStepIdx (fun i => (i + 1)%nat) w else w
               | None => w
               end).
    assert (I1 : Inv w1 /\ navMode w1 = navigating /\
                 rerouting w1 = rerouting w).
    { subst w1. destruct (nth_error (stepsOf r) (stepIdx w + 1));
        [destruct (_ <? 35)|]; auto using Inv_setStepIdx. }
    destruct I1 as (I1 & Hn & Hr).
    destruct (nth_error (stepsOf r) (stepIdx w)); [|exact I1].
    destruct (rerouting w) eqn:Hre; cbn; [exact I1|].
    destruct (120 <? _); [|exact I1].
    apply Inv_armReroute; assumption.
Qed.

Lemma Inv_onPosition (g : Garage) (pos : float * float) (w : World) :
  Inv w -> Inv (onPosition g pos w).
Proof. intros I. apply Inv_livePosEffect, Inv_setLivePos, I. Qed.

Lemma Inv_timerFires (g : Garage) (w : World) (id : positive) (t : Timeout) :
  Inv w -> find (fun t => Pos.eqb (tid t) id) (timeouts w) = Some t ->
  Inv (fetchRoute g (fst (origin t)) (snd (origin t)) (dropTimeout id w)).
Proof.
  intros I Hf.
  destruct (inv_timer w I) as [E | (t' & E & Et & Hr & Hi)];
    rewrite E in Hf; cbn in Hf; [discriminate|].
  destruct (Pos.eqb (tid t') id) eqn:Eid; [|discriminate].
  pose proof (inv_route w I) as Hro. pose proof (inv_watch w I) as Hwa.
  pose proof (inv_idle w I) as Hid.
  constructor; cbn; rewrite ?E, ?Hi; cbn; rewrite ?Eid; cbn; auto.
  intros Hp. destruct (Hid Hp) as [Hw _]. auto.
Qed.

Lemma Inv_fetchSettles (w : World) (id : positive) (res : FetchResult)
      (q : Request) :
  Inv w -> find (fun q => Pos.eqb (rid q) id) (inflight w) = Some q ->
  Inv (fetchRoute_settled res (dropRequest id w)).
Proof.
  intros I Hf.
  assert (Hi : inflight w = [q] /\ Pos.eqb (rid q) id = true).
  { pose proof (inv_one w I) as Ho.
    destruct (inflight w) as [|q0 [|q1 l]]; cbn in *;
      [discriminate | | lia].
    destruct (Pos.eqb (rid q0) id) eqn:Eid; [|discriminate].
    inversion Hf; subst. auto. }
  destruct Hi as [Hi Eid].
  assert (Ht : timeouts w = []).
  { destruct (inv_timer w I) as [E | (t & _ & _ & _ & E)];
      [exact E | congruence]. }
  pose proof (inv_route w I) as Hro. pose proof (inv_watch w I) as Hwa.
  pose proof (inv_idle w I) as Hid.
  unfold fetchRoute_settled.
  destruct res as [|data]; [|destruct (routes0 data)];
    constructor; cbn; rewrite ?Hi, ?Ht; cbn; rewrite ?Eid; cbn; auto;
    try discriminate; intros Hp; destruct (Hid Hp); auto.
Qed.

Lemma Inv_step (p : NavModalProps) (w w' : World) (e : Event) :
  Inv w -> step p w e = Some w' -> Inv w'.
Proof.
  intros I H. destruct e as [| | |pos|id|id res]; cbn in H.
  - destruct (navMode w) eqn:En; unfold isNavigating in H; rewrite En in H;
      cbn in H; [|discriminate].
    destruct (route w) eqn:Er; cbn in H; [|discriminate].
    destruct (hasInitLoc p); inversion H; subst.
    apply Inv_startNavigation; congruence.
  - destruct (isNavigating w && isSome (route w)); inversion H; subst.
    apply Inv_stopNavigation, I.
  - destruct (isSome (livePos w) || hasInitLoc p); inversion H; subst.
    apply Inv_onRecenter, I.
  - destruct (watches w); inversion H; subst. apply Inv_onPosition, I.
  - destruct (find _ (timeouts w)) eqn:Ef; inversion H; subst.
    eapply Inv_timerFires; eassumption.
  - destruct (find _ (inflight w)) eqn:Ef; inversion H; subst.
    eapply Inv_fetchSettles; eassumption.
Qed.

Lemma Inv_run (p : NavModalProps) (es : list Event) (w w' : World) :
  Inv w -> run p w es = Some w' -> Inv w'.
Proof.
  revert w. induction es as [|e es IH]; intros w I H; cbn in H.
  - inversion H; subst; exact I.
  - destruct (step p w e) as [w1|] eqn:Es; [|discriminate].
    eapply IH; [eapply Inv_step; eassumption | exact H].
Qed.

Lemma reachable_Inv (p : NavModalProps) (w : World) :
  reachable p w -> Inv w.
Proof.
  intros (geo & hypot & es & H).
  eapply Inv_run; [apply Inv_mount | exact H].
Qed.

Lemma reachable_step (p : NavModalProps) (w w' : World) (e : Event) :
  reachable p w -> step p w e = Some w' -> reachable p w'.
Proof.
  intros (geo & hypot & es & H) Hs. exists geo, hypot, (es ++ [e]).
  revert H. generalize (mount p geo hypot). induction es as [|e0 es IH];
    intros w0 H; cbn in *.
  - inversion H; subst. rewrite Hs. reflexivity.
  - destruct (step p w0 e0); [apply IH; exact H | discriminate].
Qed.

(** The distances of the concrete trip, computed. *)

Lemma fixNear_dest : (destDist hypot0 garage0 fixNear <? 25) = true.
Proof. reflexivity. Qed.

Lemma fixNextStep_dest : (destDist hypot0 garage0 fixNextStep <? 25) = false.
Proof. reflexivity. Qed.

Lemma fixNextStep_arrive0 :
  (maneuverDist hypot0 fixNextStep arrive0 <? 35) = true.
Proof. reflexivity. Qed.

Lemma fixFar_dest : (destDist hypot0 garage0 fixFar <? 25) = false.
Proof. reflexivity. Qed.

Lemma fixFar_depart0 : (120 <? maneuverDist hypot0 fixFar depart0) = true.
Proof. reflexivity. Qed.

(** The tests are the effect's own, on the doubles it computes: 35 m and
    120 m east of a maneuver at [[0, 0]], as nearly as a double longitude
    can say it, come out as exactly 35 and 120, so the first is not
    [< 35] and the second is not [> 120]. *)
Example computed_35_is_not_below_35 :
  maneuverDist hypot0 (0, 0.0003153153153153153) depart0 = 35 /\
  (maneuverDist hypot0 (0, 0.0003153153153153153) depart0 <? 35) = false.
Proof. split; reflexivity. Qed.

Example computed_120_is_not_above_120 :
  maneuverDist hypot0 (0, -0.001081081081081081) depart0 = 120 /\
  (120 <? maneuverDist hypot0 (0, -0.001081081081081081) depart0) = false.
Proof. split; reflexivity. Qed.

(** ** The branches of the [livePos] effect *)

Lemma livePosEffect_arrive (g : Garage) (w : World) (pos : float * float)
      (r : OsrmRoute) :
  livePos w = Some pos -> route w = Some r -> navMode w = navigating ->
  (destDist (mathHypot w) g pos <? 25) = true ->
  livePosEffect g w = setNavMode preview (stopWatch w).
Proof.
  intros Hl Hr Hn Hd. unfold livePosEffect. rewrite Hl, Hr, Hn.
  now rewrite Hd.
Qed.

(** Every outcome of the effect: nothing, arrival, or a step advance
    and/or an armed reroute. *)
Lemma livePosEffect_cases (g : Garage) (w : World) :
  livePosEffect g w = w \/
  (navMode w = navigating /\
   (exists pos, livePos w = Some pos /\
                (destDist (mathHypot w) g pos <? 25) = true) /\
   livePosEffect g w = setNavMode preview (stopWatch w)) \/
  (exists w1,
     (w1 = w \/ w1 = setStepIdx (fun i => (i + 1)%nat) w) /\
     (livePosEffect g w = w1 \/
      (rerouting w = false /\ navMode w = navigating /\
       exists pos, livePos w = Some pos /\
                   (destDist (mathHypot w) g pos <? 25) = false /\
                   livePosEffect g w = armReroute pos w1))).
Proof.
  unfold livePosEffect.
  destruct (livePos w) as [pos|]; [|now left].
  destruct (route w) as [r|]; [|now left].
  destruct (navMode w); [now left|].
  destruct (destDist (mathHypot w) g pos <? 25) eqn:Hd.
  - right; left. split; [reflexivity|]. split; [|reflexivity]. eauto.
  - right; right.
    match goal with
    | |- context [match nth_error ?l (stepIdx w) with _ => _ end] =>
        destruct (nth_error l (stepIdx w)) as [cur|]
    end;
    match goal with
    | |- context [match nth_error ?l (stepIdx w + 1) with _ => _ end] =>
        destruct (nth_error l (stepIdx w + 1)) as [nxt|]
    end;
    try destruct (maneuverDist (mathHypot w) pos nxt <? 35);
    try destruct (rerouting w) eqn:Hre; cbn [negb];
    try destruct (120 <? maneuverDist (mathHypot w) pos cur);
    eexists; (split; [|first [right; split; [reflexivity|];
                               split; [reflexivity|]; exists pos;
                               split; [reflexivity|]; split;
                               [exact Hd|reflexivity]
                             | left; reflexivity]]); auto.
Qed.

(** ** The concrete trip is a run of the component *)

Lemma fixFar_arrive0 : (maneuverDist hypot0 fixFar arrive0 <? 35) = false.
Proof. reflexivity. Qed.

Lemma reachable_wLoaded : reachable props0 wLoaded.
Proof.
  exists true, hypot0, [FetchSettles 1 (Resolved (Some [route0]))].
  reflexivity.
Qed.

Lemma reachable_wNav : reachable props0 wNav.
Proof.
  apply (reachable_step props0 wLoaded wNav ClickStart).
  - apply reachable_wLoaded.
  - reflexivity.
Qed.

Lemma onPosition_fixFar_wNav : onPosition garage0 fixFar wNav = wArmed.
Proof.
  unfold onPosition, livePosEffect.
  change (livePos (setLivePos (Some fixFar) wNav)) with (Some fixFar).
  change (route (setLivePos (Some fixFar) wNav)) with (Some route0).
  change (navMode (setLivePos (Some fixFar) wNav)) with navigating.
  cbv iota beta.
  change (mathHypot (setLivePos (Some fixFar) wNav)) with hypot0.
  rewrite fixFar_dest.
  change (nth_error (stepsOf route0)
            (stepIdx (setLivePos (Some fixFar) wNav) + 1))
    with (Some arrive0).
  change (nth_error (stepsOf route0)
            (stepIdx (setLivePos (Some fixFar) wNav)))
    with (Some depart0).
  change (negb (rerouting (setLivePos (Some fixFar) wNav))) with true.
  cbv iota beta.
  rewrite fixFar_arrive0, fixFar_depart0.
  reflexivity.
Qed.

Lemma reachable_wArmed : reachable props0 wArmed.
Proof.
  apply (reachable_step props0 wNav wArmed (Position fixFar)).
  - apply reachable_wNav.
  - cbn [step]. change (watches wNav) with [2%positive].
    cbv iota. f_equal; apply onPosition_fixFar_wNav.
Qed.

Lemma reachable_wFetching : reachable props0 wFetching.
Proof.
  apply (reachable_step props0 wArmed wFetching (TimerFires 3)).
  - apply reachable_wArmed.
  - reflexivity.
Qed.

Lemma reachable_wStopped : reachable props0 wStopped.
Proof.
  apply (reachable_step props0 wFetching wStopped ClickStop).
  - apply reachable_wFetching.
  - reflexivity.
Qed.

(** ** Route requests *)

(** C4: a request that comes back with a route replaces [route], resets
    [stepIdx] to 0 and clears [rerouting]; one that fails (thrown, or no
    route in the answer) clears [rerouting], sets [routeError], and keeps
    [route] and [stepIdx]. *)
Theorem fetch_success_replaces_failure_keeps
        (id : positive) (res : FetchResult) (w : World) :
  let w' := fetchRoute_settled res (dropRequest id w) in
  match res with
  | Resolved (Some (r :: _)) =>
      route w' = Some r /\ stepIdx w' = 0%nat /\ rerouting w' = false
  | Resolved _ =>
      rerouting w' = false /\
      routeError w' = Some "No route found"%string /\
      route w' = route w /\ stepIdx w' = stepIdx w
  | Rejected =>
      rerouting w' = false /\
      routeError w' = Some "Could not load route"%string /\
      route w' = route w /\ stepIdx w' = stepIdx w
  end.
Proof.
  destruct res as [|[[|r rest]|]]; cbn; repeat apply conj; reflexivity.
Qed.

(** C8, as the specification states it, fails: a route whose step list is
    empty is installed, and no error is shown. *)
Lemma empty_step_route_is_installed :
  let w := mount props0 true hypot0 in
  let w' := fetchRoute_settled (Resolved (Some [routeNoSteps]))
              (dropRequest 1 w) in
  step props0 w (FetchSettles 1 (Resolved (Some [routeNoSteps]))) = Some w'
  /\ stepsOf routeNoSteps = []
  /\ route w' = Some routeNoSteps
  /\ routeError w' = None.
Proof. cbv zeta. repeat apply conj; reflexivity. Qed.

(** C8, amended: a request fails (an error is shown and no route is
    installed) when the answer holds no route; a route that is returned is
    installed whatever its step list, also an empty one, and no error is
    set. *)
Theorem fetch_fails_only_without_a_route
        (id : positive) (data : option (list OsrmRoute)) (w : World) :
  let w' := fetchRoute_settled (Resolved data) (dropRequest id w) in
  (routes0 data = None ->
   routeError w' = Some "No route found"%string /\ route w' = route w) /\
  (forall r, routes0 data = Some r ->
   route w' = Some r /\ routeError w' = routeError w).
Proof.
  cbn. split.
  - intros H. rewrite H. cbn. split; reflexivity.
  - intros r H. rewrite H. cbn. split; reflexivity.
Qed.

Lemma fetch_fails_only_without_a_route_witness :
  routes0 (Some [routeNoSteps]) = Some routeNoSteps /\
  route (fetchRoute_settled (Resolved (Some [routeNoSteps]))
           (dropRequest 1 (mount props0 true hypot0))) = Some routeNoSteps.
Proof.
  split; [reflexivity|].
  apply (proj2 (fetch_fails_only_without_a_route
                  1 (Some [routeNoSteps]) (mount props0 true hypot0))
               routeNoSteps).
  reflexivity.
Defined.

(** C5, as the specification states it, fails: the answer to a reroute
    request that arrives after navigation was stopped is applied. *)
Lemma late_reroute_result_is_applied :
  let res := Resolved (Some [route1]) in
  let w' := fetchRoute_settled res (dropRequest 4 wStopped) in
  reachable props0 wStopped /\
  navMode wStopped = preview /\
  route wStopped = Some route0 /\
  step props0 wStopped (FetchSettles 4 res) = Some w' /\
  route w' = Some route1 /\
  route w' <> route wStopped.
Proof.
  cbv zeta. split; [apply reachable_wStopped|].
  repeat apply conj; try reflexivity.
  change (Some route1 <> Some route0). intros H.
  assert (E : (distance route1 <? 200) = (distance route0 <? 200))
    by congruence.
  vm_compute in E. discriminate.
Qed.

(** C5, amended: the completion of a request makes no check of the mode;
    an answer that arrives while the modal is back in preview is applied
    like any other: the route is replaced, the step index reset and
    [rerouting] cleared, and the mode stays preview. *)
Theorem late_fetch_result_applied_in_preview
        (p : NavModalProps) (w w' : World) (id : positive)
        (r : OsrmRoute) (rest : list OsrmRoute) :
  navMode w = preview ->
  step p w (FetchSettles id (Resolved (Some (r :: rest)))) = Some w' ->
  route w' = Some r /\ stepIdx w' = 0%nat /\ rerouting w' = false /\
  navMode w' = preview.
Proof.
  intros Hn Hs. cbn in Hs.
  destruct (find _ (inflight w)); inversion Hs; subst.
  cbn. repeat apply conj; auto.
Qed.

Lemma late_fetch_result_applied_in_preview_witness :
  route (fetchRoute_settled (Resolved (Some [route1]))
           (dropRequest 4 wStopped)) = Some route1.
Proof.
  apply (late_fetch_result_applied_in_preview props0 wStopped _ 4 route1 []).
  - reflexivity.
  - reflexivity.
Defined.

(** ** Camera follow *)

(** C7, as the specification states it, fails: stopping navigation sets
    [followUser] to false, with no manual pan reported; the component has
    no handler for a manual pan at all. *)
Lemma stop_clears_followUser :
  reachable props0 wNav /\
  followUser wNav = true /\
  step props0 wNav ClickStop = Some (stopNavigation wNav) /\
  followUser (stopNavigation wNav) = false.
Proof.
  split; [apply reachable_wNav|]. repeat apply conj; reflexivity.
Qed.

Lemma livePosEffect_followUser (g : Garage) (w : World) :
  followUser (livePosEffect g w) = followUser w.
Proof.
  destruct (stopWatch_keeps w) as (_ & _ & _ & _ & Hk & _).
  destruct (livePosEffect_cases g w)
    as [E | [(_ & _ & E) | (w1 & Hw1 & [E | (_ & _ & pos & _ & _ & E)])]];
    rewrite E; try (destruct Hw1; subst w1); cbn; auto;
    unfold armReroute; cbn; destruct (rerouteTimer w); reflexivity.
Qed.

(** C7, amended: [followUser] is true whenever navigation begins; the only
    event that makes it false is the stop button, and the only events that
    make it true again are the recenter button and a fresh start. *)
Theorem followUser_changes
        (p : NavModalProps) (w w' : World) (e : Event) :
  step p w e = Some w' ->
  (e = ClickStart -> navMode w' = navigating /\ followUser w' = true) /\
  (followUser w = true -> followUser w' = false -> e = ClickStop) /\
  (followUser w = false -> followUser w' = true ->
   e = ClickStart \/ e = ClickRecenter).
Proof.
  intros Hs.
  destruct e as [| | |pos|id|id res]; unfold step in Hs.
  - destruct (negb (isNavigating w) && isSome (route w) && hasInitLoc p);
      inversion Hs; subst.
    repeat split; auto; intros;
      unfold startNavigation in *; cbn in *;
      destruct (geolocation w); cbn in *; auto; congruence.
  - destruct (isNavigating w && isSome (route w)); inversion Hs; subst.
    repeat split; auto; discriminate.
  - destruct (isSome (livePos w) || hasInitLoc p); inversion Hs; subst.
    repeat split; auto; try discriminate.
  - destruct (watches w); inversion Hs; subst. unfold onPosition.
    rewrite livePosEffect_followUser. cbn.
    repeat split; try discriminate; congruence.
  - destruct (find _ (timeouts w)); inversion Hs; subst. cbn.
    repeat split; try discriminate; congruence.
  - destruct (find _ (inflight w)); inversion Hs; subst.
    destruct res as [|[[|r0 rest]|]]; cbn;
      repeat split; try discriminate; congruence.
Qed.

Lemma followUser_changes_witness :
  navMode (startNavigation wLoaded) = navigating /\
  followUser (startNavigation wLoaded) = true.
Proof.
  apply (followUser_changes props0 wLoaded _ ClickStart);
    reflexivity.
Defined.

(** ** Stopping *)

Lemma preview_step (p : NavModalProps) (w w' : World) (e : Event) :
  Inv w -> navMode w = preview -> e <> ClickStart ->
  step p w e = Some w' ->
  navMode w' = preview /\
  match e with Position _ | TimerFires _ => False | _ => True end.
Proof.
  intros I Hn He Hs. destruct (inv_idle w I Hn) as [Hw Ht].
  destruct e as [| | |pos|id|id res]; unfold step in Hs.
  - congruence.
  - unfold isNavigating in Hs. rewrite Hn in Hs. discriminate.
  - destruct (isSome (livePos w) || hasInitLoc p); inversion Hs; subst.
    split; [exact Hn | exact Logic.I].
  - rewrite Hw in Hs. discriminate.
  - rewrite Ht in Hs. discriminate.
  - destruct (find _ (inflight w)); inversion Hs; subst.
    split; [|exact Logic.I].
    destruct res as [|[[|r0 rest]|]]; exact Hn.
Qed.

Lemma preview_run (p : NavModalProps) (es : list Event) (w w' : World) :
  Inv w -> navMode w = preview -> ~ In ClickStart es ->
  run p w es = Some w' ->
  navMode w' = preview /\
  Forall (fun e => match e with
                   | Position _ | TimerFires _ => False
                   | _ => True
                   end) es.
Proof.
  revert w. induction es as [|e es IH]; intros w I Hn Hin Hr; cbn in Hr.
  - inversion Hr; subst. split; [exact Hn | constructor].
  - destruct (step p w e) as [w1|] eqn:Es; [|discriminate].
    assert (He : e <> ClickStart) by (intros ->; apply Hin; now left).
    destruct (preview_step p w w1 e I Hn He Es) as [Hn1 Hc].
    destruct (IH w1 (Inv_step p w w1 e I Es) Hn1
                (fun H => Hin (or_intror H)) Hr) as [Hn' Hall].
    split; [exact Hn' | constructor; assumption].
Qed.

(** C6: the stop button releases the position watch and cancels the armed
    reroute timer, and keeps the route. Until navigation is started again
    no position callback and no timer callback runs: neither is enabled in
    the stopped world, and no run without a start contains one. *)
Theorem stop_releases_watch_and_timer
        (p : NavModalProps) (w w' : World) :
  reachable p w -> step p w ClickStop = Some w' ->
  navMode w' = preview /\
  watches w' = [] /\ watchRef w' = None /\ timeouts w' = [] /\
  route w' = route w /\
  (forall pos, step p w' (Position pos) = None) /\
  (forall id, step p w' (TimerFires id) = None) /\
  (forall es w'', ~ In ClickStart es -> run p w' es = Some w'' ->
     watches w'' = [] /\ timeouts w'' = [] /\
     Forall (fun e => match e with
                      | Position _ | TimerFires _ => False
                      | _ => True
                      end) es).
Proof.
  intros Hre Hs. pose proof (reachable_Inv p w Hre) as I.
  unfold step in Hs.
  destruct (isNavigating w && isSome (route w)); inversion Hs; subst.
  pose proof (Inv_stopNavigation w I) as I'.
  assert (Hn : navMode (stopNavigation w) = preview) by reflexivity.
  destruct (inv_idle _ I' Hn) as [Hw Ht].
  destruct (stopWatch_keeps w) as (Hr & _).
  split; [exact Hn|]. split; [exact Hw|].
  split; [apply stopWatch_watchRef|]. split; [exact Ht|].
  split; [exact Hr|].
  split; [intros pos; unfold step; now rewrite Hw|].
  split; [intros id; unfold step; now rewrite Ht|].
  intros es w'' Hin Hrun.
  destruct (preview_run p es _ w'' I' Hn Hin Hrun) as [Hn'' Hall].
  destruct (inv_idle w'' (Inv_run p es _ w'' I' Hrun) Hn'') as [Hw'' Ht''].
  auto.
Qed.

Lemma stop_releases_watch_and_timer_witness :
  timeouts wArmed <> [] /\ watches wArmed <> [] /\
  watches (stopNavigation wArmed) = [] /\
  timeouts (stopNavigation wArmed) = [].
Proof.
  split; [discriminate|]. split; [discriminate|].
  destruct (stop_releases_watch_and_timer props0 wArmed
              (stopNavigation wArmed) reachable_wArmed eq_refl)
    as (_ & Hw & _ & Ht & _).
  split; assumption.
Defined.

(** ** Arrival *)

Lemma onPosition_arrive (g : Garage) (w : World) (pos : float * float) :
  navMode w = navigating -> route w <> None ->
  (destDist (mathHypot w) g pos <? 25) = true ->
  onPosition g pos w
  = setNavMode preview (stopWatch (setLivePos (Some pos) w)).
Proof.
  intros Hn Hr Hd. destruct (route w) as [r|] eqn:Er; [|congruence].
  unfold onPosition.
  apply (livePosEffect_arrive g (setLivePos (Some pos) w) pos r);
    auto.
Qed.

(** C1, as the specification states it, fails: a fix within 25 m of the
    garage puts the modal back in preview, the mode the stop button also
    leads to; there is no arrived mode. *)
Lemma arrival_shows_preview_not_arrived :
  reachable props0 wNav /\
  navMode wNav = navigating /\
  (destDist (mathHypot wNav) garage0 fixNear <? 25) = true /\
  sessionMode (onPosition garage0 fixNear wNav) = Preview /\
  sessionMode (onPosition garage0 fixNear wNav) <> Arrived.
Proof.
  split; [apply reachable_wNav|]. split; [reflexivity|].
  split; [apply fixNear_dest|].
  rewrite (onPosition_arrive garage0 wNav fixNear eq_refl
             ltac:(discriminate) fixNear_dest).
  split; [reflexivity | discriminate].
Qed.

(** C1, amended: while navigating, a fix whose distance to the garage, as
    the effect computes it in doubles, is less than 25 cancels the pending
    reroute timer and the position watch and puts the modal back in
    preview mode (the component has no arrived mode); the step index is
    not advanced and no reroute is armed or requested for that fix,
    whatever the step index. *)
Theorem arrival_stops_and_returns_to_preview
        (p : NavModalProps) (w : World) (pos : float * float) :
  reachable p w -> navMode w = navigating ->
  (destDist (mathHypot w) (garage p) pos <? 25) = true ->
  let w' := onPosition (garage p) pos w in
  navMode w' = preview /\
  watches w' = [] /\ watchRef w' = None /\ timeouts w' = [] /\
  stepIdx w' = stepIdx w /\ rerouting w' = rerouting w /\
  route w' = route w /\
  inflight w' = inflight w /\ fetchLog w' = fetchLog w.
Proof.
  intros Hre Hn Hd w'. pose proof (reachable_Inv p w Hre) as I.
  subst w'. rewrite (onPosition_arrive _ w pos Hn (inv_route w I Hn) Hd).
  pose proof (Inv_setLivePos (Some pos) w I) as I0.
  set (w0 := setLivePos (Some pos) w) in *.
  destruct (stopWatch_keeps w0)
    as (Hr & _ & Hs & Hro & _ & _ & _ & Hi & Hf & _).
  cbn. rewrite Hr, Hs, Hro, Hi, Hf.
  rewrite (Inv_stopWatch_watches w0 I0), (Inv_stopWatch_timeouts w0 I0),
    (stopWatch_watchRef w0).
  repeat apply conj; reflexivity.
Qed.

Lemma arrival_stops_and_returns_to_preview_witness :
  navMode (onPosition garage0 fixNear wArmed) = preview /\
  timeouts (onPosition garage0 fixNear wArmed) = [] /\
  stepIdx (onPosition garage0 fixNear wArmed) = stepIdx wArmed.
Proof.
  destruct (arrival_stops_and_returns_to_preview props0 wArmed fixNear
              reachable_wArmed eq_refl fixNear_dest)
    as (H1 & _ & _ & H2 & H3 & _).
  repeat apply conj; assumption.
Defined.

(** ** Step advance *)

(** C2: while navigating and not within 25 m of the garage, a fix less
    than 35 m from the maneuver of the next step (when there is one) raises
    the step index by exactly one, whatever later steps it may also be
    near; and no fix at all raises it by more than one. The distances are
    the doubles the effect computes, and the tests are its tests. *)
Theorem step_advances_by_exactly_one
        (g : Garage) (w : World) (pos : float * float)
        (r : OsrmRoute) (nextStep : OsrmStep) :
  navMode w = navigating -> route w = Some r ->
  (destDist (mathHypot w) g pos <? 25) = false ->
  nth_error (stepsOf r) (stepIdx w + 1) = Some nextStep ->
  (maneuverDist (mathHypot w) pos nextStep <? 35) = true ->
  stepIdx (onPosition g pos w) = (stepIdx w + 1)%nat /\
  (forall pos', (stepIdx (onPosition g pos' w) <= stepIdx w + 1)%nat).
Proof.
  intros Hn Hr Hd Hnx Hm. split.
  - unfold onPosition, livePosEffect.
    change (livePos (setLivePos (Some pos) w)) with (Some pos).
    change (route (setLivePos (Some pos) w)) with (route w).
    change (navMode (setLivePos (Some pos) w)) with (navMode w).
    change (stepIdx (setLivePos (Some pos) w)) with (stepIdx w).
    change (mathHypot (setLivePos (Some pos) w)) with (mathHypot w).
    rewrite Hr, Hn, Hnx, Hd, Hm.
    destruct (nth_error (stepsOf r) (stepIdx w)) as [cur|];
      [|reflexivity].
    destruct (negb _); [|reflexivity].
    destruct (120 <? _); [|reflexivity].
    unfold armReroute. cbn. destruct (rerouteTimer w); reflexivity.
  - intros pos'. unfold onPosition.
    set (w0 := setLivePos (Some pos') w).
    change (stepIdx w) with (stepIdx w0).
    destruct (stopWatch_keeps w0) as (_ & _ & Hk & _).
    destruct (livePosEffect_cases g w0)
      as [E | [(_ & _ & E) | (w1 & Hw1 & [E | (_ & _ & q & _ & _ & E)])]];
      rewrite E; try (destruct Hw1; subst w1); cbn -[Nat.add];
      rewrite ?Hk; try lia;
      unfold armReroute; cbn -[Nat.add]; destruct (rerouteTimer w);
      cbn -[Nat.add]; lia.
Qed.

Lemma step_advances_by_exactly_one_witness :
  stepIdx wNav = 0%nat /\
  stepIdx (onPosition garage0 fixNextStep wNav) = 1%nat.
Proof.
  split; [reflexivity|].
  apply (step_advances_by_exactly_one garage0 wNav fixNextStep route0
           arrive0 eq_refl eq_refl fixNextStep_dest eq_refl
           fixNextStep_arrive0).
Defined.

(** ** Rerouting *)

(** The engine's [Math.hypot] stays what it is. *)
Lemma onPosition_mathHypot (g : Garage) (pos : float * float) (w : World) :
  mathHypot (onPosition g pos w) = mathHypot w.
Proof.
  unfold onPosition. set (w0 := setLivePos (Some pos) w).
  change (mathHypot w) with (mathHypot w0).
  destruct (livePosEffect_cases g w0)
    as [E | [(_ & _ & E) | (w1 & Hw1 & [E | (_ & _ & q & _ & _ & E)])]];
    rewrite E; try (destruct Hw1; subst w1); cbn;
    unfold stopWatch, armReroute; cbn;
    repeat match goal with
           | |- context [match ?x with _ => _ end] => destruct x; cbn
           end; reflexivity.
Qed.

(** While [rerouting] is set the effect arms nothing and requests nothing;
    the pending timeouts change only when the fix is an arrival. *)
Lemma livePosEffect_while_rerouting (g : Garage) (w : World) :
  rerouting w = true ->
  rerouting (livePosEffect g w) = true /\
  fetchLog (livePosEffect g w) = fetchLog w /\
  inflight (livePosEffect g w) = inflight w /\
  (timeouts (livePosEffect g w) = timeouts w \/
   timeouts (livePosEffect g w) = timeouts (stopWatch w) /\
   exists pos, livePos w = Some pos /\
               (destDist (mathHypot w) g pos <? 25) = true).
Proof.
  intros Hre.
  destruct (stopWatch_keeps w) as (_ & _ & _ & Hk & _ & _ & _ & Hi & Hf & _).
  destruct (livePosEffect_cases g w)
    as [E | [(_ & Hp & E) | (w1 & Hw1 & [E | (Hc & _)])]];
    [rewrite E; auto | rewrite E; cbn | rewrite E | congruence].
  - rewrite Hk, Hi, Hf. repeat (split; [auto|]).
    right. split; [reflexivity | exact Hp].
  - destruct Hw1; subst w1; cbn; auto.
Qed.

Lemma onPosition_while_rerouting (g : Garage) (pos : float * float)
      (w : World) :
  rerouting w = true -> (destDist (mathHypot w) g pos <? 25) = false ->
  rerouting (onPosition g pos w) = true /\
  timeouts (onPosition g pos w) = timeouts w /\
  fetchLog (onPosition g pos w) = fetchLog w.
Proof.
  intros Hre Hd. unfold onPosition.
  destruct (livePosEffect_while_rerouting g (setLivePos (Some pos) w) Hre)
    as (H1 & H2 & _ & [H4 | (_ & q & Hq & Hlt)]).
  - auto.
  - cbn in Hq. inversion Hq; subst.
    change (mathHypot (setLivePos (Some q) w)) with (mathHypot w) in Hlt.
    congruence.
Qed.

Lemma runFixes_while_rerouting (g : Garage) (fixes : list (float * float))
      (w : World) :
  rerouting w = true ->
  Forall (fun q => (destDist (mathHypot w) g q <? 25) = false) fixes ->
  rerouting (runFixes g fixes w) = true /\
  timeouts (runFixes g fixes w) = timeouts w /\
  fetchLog (runFixes g fixes w) = fetchLog w.
Proof.
  revert w. induction fixes as [|q fixes IH]; intros w Hre Hall.
  - cbn. auto.
  - change (runFixes g (q :: fixes) w)
      with (runFixes g fixes (onPosition g q w)).
    inversion Hall as [|? ? Hq Hrest]; subst.
    destruct (onPosition_while_rerouting g q w Hre Hq) as (H1 & H2 & H3).
    rewrite <- (onPosition_mathHypot g q w) in Hrest.
    destruct (IH (onPosition g q w) H1 Hrest) as (K1 & K2 & K3).
    rewrite K2, K3, H2, H3. auto.
Qed.

(** With [rerouting] set, nothing pending and nothing in flight, a fix of
    any kind leaves it so. *)
Lemma onPosition_stuck (g : Garage) (pos : float * float) (w : World) :
  rerouting w = true -> timeouts w = [] ->
  rerouting (onPosition g pos w) = true /\
  timeouts (onPosition g pos w) = [] /\
  inflight (onPosition g pos w) = inflight w /\
  fetchLog (onPosition g pos w) = fetchLog w.
Proof.
  intros Hre Ht. unfold onPosition.
  set (w0 := setLivePos (Some pos) w).
  destruct (livePosEffect_while_rerouting g w0 Hre)
    as (H1 & H2 & H3 & [H4 | (H4 & _)]); rewrite H4.
  - auto.
  - rewrite stopWatch_timeouts.
    change (timeouts w0) with (timeouts w). rewrite Ht.
    destruct (rerouteTimer w0); auto.
Qed.

Lemma runFixes_stuck (g : Garage) (fixes : list (float * float)) (w : World) :
  rerouting w = true -> timeouts w = [] ->
  rerouting (runFixes g fixes w) = true /\
  timeouts (runFixes g fixes w) = [] /\
  fetchLog (runFixes g fixes w) = fetchLog w.
Proof.
  revert w. induction fixes as [|q fixes IH]; intros w Hre Ht.
  - cbn. auto.
  - change (runFixes g (q :: fixes) w)
      with (runFixes g fixes (onPosition g q w)).
    destruct (onPosition_stuck g q w Hre Ht) as (H1 & H2 & _ & H4).
    destruct (IH (onPosition g q w) H1 H2) as (K1 & K2 & K3).
    rewrite K3, H4. auto.
Qed.

(** The first off-route fix. *)
Lemma onPosition_arms (g : Garage) (w : World) (pos : float * float)
      (r : OsrmRoute) (cur : OsrmStep) :
  navMode w = navigating -> route w = Some r -> rerouting w = false ->
  timeouts w = [] ->
  nth_error (stepsOf r) (stepIdx w) = Some cur ->
  (destDist (mathHypot w) g pos <? 25) = false ->
  (120 <? maneuverDist (mathHypot w) pos cur) = true ->
  rerouting (onPosition g pos w) = true /\
  timeouts (onPosition g pos w)
  = [ {| tid := nextHandle w; delay := 1500; origin := pos |} ] /\
  fetchLog (onPosition g pos w) = fetchLog w.
Proof.
  intros Hn Hr Hre Ht Hc Hd Hm. unfold onPosition, livePosEffect.
  change (livePos (setLivePos (Some pos) w)) with (Some pos).
  change (route (setLivePos (Some pos) w)) with (route w).
  change (navMode (setLivePos (Some pos) w)) with (navMode w).
  change (stepIdx (setLivePos (Some pos) w)) with (stepIdx w).
  change (rerouting (setLivePos (Some pos) w)) with (rerouting w).
  change (mathHypot (setLivePos (Some pos) w)) with (mathHypot w).
  rewrite Hr, Hn, Hc, Hre. cbv iota beta. cbn [negb].
  rewrite Hd, Hm.
  destruct (nth_error (stepsOf r) (stepIdx w + 1)) as [nxt|];
    [destruct (maneuverDist (mathHypot w) pos nxt <? 35)|];
    unfold armReroute; cbn; destruct (rerouteTimer w); cbn;
    rewrite ?Ht; auto.
Qed.

(** C3: reroute requests are debounced. While navigating with no reroute
    under way, the first fix more than 120 m from the current step's
    maneuver (the double the effect computes, by its test) sets
    [rerouting] at once and arms one timer of 1500 ms, with no request
    sent yet. Further fixes that do not arrive, off route or
    not, change neither the timer nor the request log. When the timer
    fires, one request is sent, from the position of the first fix; fixes
    after that send no other. So a run of N such fixes costs exactly one
    request. *)
Theorem reroute_is_debounced
        (p : NavModalProps) (w : World) (r : OsrmRoute) (cur : OsrmStep)
        (pos : float * float) (more later : list (float * float)) :
  reachable p w -> navMode w = navigating -> route w = Some r ->
  rerouting w = false ->
  nth_error (stepsOf r) (stepIdx w) = Some cur ->
  (destDist (mathHypot w) (garage p) pos <? 25) = false ->
  (120 <? maneuverDist (mathHypot w) pos cur) = true ->
  Forall (fun q => (destDist (mathHypot w) (garage p) q <? 25) = false)
         more ->
  let t := {| tid := nextHandle w; delay := 1500; origin := pos |} in
  let w1 := onPosition (garage p) pos w in
  let w2 := runFixes (garage p) more w1 in
  (rerouting w1 = true /\ timeouts w1 = [t] /\ fetchLog w1 = fetchLog w) /\
  (rerouting w2 = true /\ timeouts w2 = [t] /\ fetchLog w2 = fetchLog w) /\
  exists w3 q,
    step p w2 (TimerFires (tid t)) = Some w3 /\
    fetchLog w3 = q :: fetchLog w /\
    fromLat q = fst pos /\ fromLng q = snd pos /\
    timeouts w3 = [] /\
    fetchLog (runFixes (garage p) later w3) = q :: fetchLog w /\
    timeouts (runFixes (garage p) later w3) = [].
Proof.
  intros Hreach Hn Hr Hre Hc Hd Hm Hall t w1 w2.
  pose proof (reachable_Inv p w Hreach) as I.
  assert (Ht : timeouts w = []).
  { destruct (inv_timer w I) as [E | (t' & _ & _ & E & _)];
      [exact E | congruence]. }
  destruct (onPosition_arms (garage p) w pos r cur Hn Hr Hre Ht Hc Hd Hm)
    as (A1 & A2 & A3).
  fold w1 in A1, A2, A3. fold t in A2.
  rewrite <- (onPosition_mathHypot (garage p) pos w) in Hall. fold w1 in Hall.
  destruct (runFixes_while_rerouting (garage p) more w1 A1 Hall)
    as (B1 & B2 & B3).
  fold w2 in B1, B2, B3. rewrite A2 in B2. rewrite A3 in B3.
  split; [auto|]. split; [auto|].
  set (w3 := fetchRoute (garage p) (fst pos) (snd pos)
               (dropTimeout (tid t) w2)).
  assert (C1 : step p w2 (TimerFires (tid t)) = Some w3).
  { unfold step. rewrite B2. cbn [find tid t]. rewrite Pos.eqb_refl.
    reflexivity. }
  assert (C2 : rerouting w3 = true) by exact B1.
  assert (C3 : timeouts w3 = []).
  { subst w3. cbn. rewrite B2. cbn. rewrite Pos.eqb_refl. reflexivity. }
  assert (C4 : fetchLog w3
               = {| rid := nextHandle w2; fromLat := fst pos;
                    fromLng := snd pos; toLat := lat (garage p);
                    toLng := lng (garage p) |} :: fetchLog w).
  { subst w3. cbn. rewrite B3. reflexivity. }
  destruct (runFixes_stuck (garage p) later w3 C2 C3) as (_ & D2 & D3).
  eexists w3, _. split; [exact C1|]. split; [exact C4|].
  split; [reflexivity|]. split; [reflexivity|]. split; [exact C3|].
  split; [rewrite D3; exact C4 | exact D2].
Qed.

Lemma reroute_is_debounced_witness :
  rerouting (onPosition garage0 fixFar wNav) = true /\
  timeouts (runFixes garage0 [fixFar; fixNextStep; fixFar]
              (onPosition garage0 fixFar wNav))
  = [ {| tid := 3; delay := 1500; origin := fixFar |} ].
Proof.
  assert (Hall : Forall (fun q => (destDist hypot0 garage0 q <? 25) = false)
                   [fixFar; fixNextStep; fixFar]).
  { repeat constructor. }
  destruct (reroute_is_debounced props0 wNav route0 depart0 fixFar
              [fixFar; fixNextStep; fixFar] []
              reachable_wNav eq_refl eq_refl eq_refl eq_refl
              fixFar_dest fixFar_depart0 Hall)
    as ((H1 & _) & (_ & H2 & _) & _).
  split; [exact H1 | exact H2].
Defined.

(** ** The stuck flag *)

Lemma stuck_step (p : NavModalProps) (w w' : World) (e : Event) :
  rerouting w = true -> timeouts w = [] -> inflight w = [] ->
  step p w e = Some w' ->
  rerouting w' = true /\ timeouts w' = [] /\ inflight w' = [] /\
  fetchLog w' = fetchLog w.
Proof.
  intros Hre Ht Hi Hs.
  destruct e as [| | |pos|id|id res]; unfold step in Hs.
  - destruct (negb (isNavigating w) && isSome (route w) && hasInitLoc p);
      inversion Hs; subst.
    unfold startNavigation. cbn. destruct (geolocation w); cbn; auto.
  - destruct (isNavigating w && isSome (route w)); inversion Hs; subst.
    destruct (stopWatch_keeps w)
      as (_ & _ & _ & Hk & _ & _ & _ & Hki & Hkf & _).
    cbn. rewrite Hk, Hki, Hkf, stopWatch_timeouts, Ht.
    destruct (rerouteTimer w); auto.
  - destruct (isSome (livePos w) || hasInitLoc p); inversion Hs; subst.
    cbn. auto.
  - destruct (watches w); inversion Hs; subst.
    destruct (onPosition_stuck (garage p) pos w Hre Ht)
      as (H1 & H2 & H3 & H4).
    rewrite H3. auto.
  - rewrite Ht in Hs. discriminate.
  - rewrite Hi in Hs. discriminate.
Qed.

Lemma stuck_run (p : NavModalProps) (es : list Event) (w w' : World) :
  rerouting w = true -> timeouts w = [] -> inflight w = [] ->
  run p w es = Some w' ->
  rerouting w' = true /\ timeouts w' = [] /\ inflight w' = [] /\
  fetchLog w' = fetchLog w.
Proof.
  revert w. induction es as [|e es IH]; intros w Hre Ht Hi Hr; cbn in Hr.
  - inversion Hr; subst. auto.
  - destruct (step p w e) as [w1|] eqn:Es; [|discriminate].
    destruct (stuck_step p w w1 e Hre Ht Hi Es) as (H1 & H2 & H3 & H4).
    destruct (IH w1 H1 H2 H3 Hr) as (K1 & K2 & K3 & K4).
    rewrite K4, H4. auto.
Qed.

(** C10: when navigation stops, by the stop button or by arrival (a fix
    whose distance to the garage the effect computes below 25), while
    the reroute timer is armed and its request not yet sent, the timer is
    cancelled and [rerouting] stays true; no request is in flight to clear
    it. From then on, whatever happens (navigation started again, fixes
    off route, anything), [rerouting] is true, no timer is armed and no
    request is sent. *)
Theorem rerouting_stuck_after_cancelled_timer
        (p : NavModalProps) (w w' : World) (e : Event) :
  reachable p w -> navMode w = navigating -> timeouts w <> [] ->
  (e = ClickStop \/
   exists pos, e = Position pos /\
               (destDist (mathHypot w) (garage p) pos <? 25) = true) ->
  step p w e = Some w' ->
  navMode w' = preview /\
  rerouting w' = true /\ timeouts w' = [] /\ inflight w' = [] /\
  forall es w'', run p w' es = Some w'' ->
    rerouting w'' = true /\ timeouts w'' = [] /\ inflight w'' = [] /\
    fetchLog w'' = fetchLog w'.
Proof.
  intros Hreach Hn Ht He Hs.
  pose proof (reachable_Inv p w Hreach) as I.
  pose proof (Inv_step p w w' e I Hs) as I'.
  destruct (inv_timer w I) as [E | (t & _ & _ & Hre & Hi)]; [congruence|].
  assert (Hp : navMode w' = preview /\ rerouting w' = true /\
               inflight w' = []).
  { destruct He as [-> | (pos & -> & Hd)]; unfold step in Hs.
    - destruct (isNavigating w && isSome (route w)); inversion Hs; subst.
      destruct (stopWatch_keeps w)
        as (_ & _ & _ & Hk & _ & _ & _ & Hki & _).
      cbn. rewrite Hk, Hki. auto.
    - destruct (watches w); inversion Hs; subst.
      rewrite (onPosition_arrive _ w pos Hn (inv_route w I Hn) Hd).
      destruct (stopWatch_keeps (setLivePos (Some pos) w))
        as (_ & _ & _ & Hk & _ & _ & _ & Hki & _).
      cbn. rewrite Hk, Hki. auto. }
  destruct Hp as (Hp & Hre' & Hi').
  destruct (inv_idle w' I' Hp) as [_ Ht'].
  repeat (split; [assumption|]).
  intros es w'' Hrun. apply (stuck_run p es w' w''); assumption.
Qed.

Lemma rerouting_stuck_after_cancelled_timer_witness :
  rerouting (stopNavigation wArmed) = true /\
  timeouts (stopNavigation wArmed) = [] /\
  rerouting (startNavigation (stopNavigation wArmed)) = true.
Proof.
  destruct (rerouting_stuck_after_cancelled_timer props0 wArmed
              (stopNavigation wArmed) ClickStop reachable_wArmed eq_refl
              ltac:(discriminate) (or_introl eq_refl) eq_refl)
    as (_ & H1 & H2 & _ & H3).
  split; [exact H1|]. split; [exact H2|].
  apply (H3 [ClickStart]). reflexivity.
Defined.

(** * Further properties of the navigation modal *)

Lemma stopWatch_keeps_more (w : World) :
  routeLoading (stopWatch w) = routeLoading w /\
  geolocation (stopWatch w) = geolocation w /\
  nextHandle (stopWatch w) = nextHandle w.
Proof.
  unfold stopWatch.
  destruct (watchRef w); cbn; destruct (rerouteTimer w); cbn; auto.
Qed.

(** What the effect does to the step index and to the fields the
    [Shown] invariant reads. *)
Lemma livePosEffect_shown (g : Garage) (w : World) :
  route (livePosEffect g w) = route w /\
  routeLoading (livePosEffect g w) = routeLoading w /\
  inflight (livePosEffect g w) = inflight w /\
  fetchLog (livePosEffect g w) = fetchLog w /\
  (navMode (livePosEffect g w) = navigating -> navMode w = navigating) /\
  (stepIdx (livePosEffect g w) = stepIdx w \/
   exists r nextStep,
     route w = Some r /\
     nth_error (stepsOf r) (stepIdx w + 1) = Some nextStep /\
     stepIdx (livePosEffect g w) = (stepIdx w + 1)%nat).
Proof.
  unfold livePosEffect.
  destruct (livePos w) as [pos|]; [|now intuition congruence].
  destruct (route w) as [r|] eqn:Er; [|now intuition congruence].
  destruct (navMode w) eqn:En; [now intuition congruence|].
  destruct (destDist (mathHypot w) g pos <? 25).
  - destruct (stopWatch_keeps w)
      as (Hr & _ & Hs & _ & _ & _ & _ & Hi & Hf & _).
    destruct (stopWatch_keeps_more w) as (Hl & _).
    cbn. rewrite Hr, Hs, Hi, Hf, Hl. intuition congruence.
  - destruct (nth_error (stepsOf r) (stepIdx w + 1)) as [nxt|] eqn:Enx;
      [destruct (maneuverDist (mathHypot w) pos nxt <? 35)|];
      (destruct (nth_error (stepsOf r) (stepIdx w)) as [cur|];
       [destruct (rerouting w); cbn [negb];
        [|destruct (120 <? maneuverDist (mathHypot w) pos cur)]|]);
      unfold armReroute; cbn -[Nat.add];
      try (destruct (rerouteTimer w); cbn -[Nat.add]);
      repeat (split; [solve [auto]|]);
      solve [left; reflexivity
            | right; exists r, nxt; repeat split; auto].
Qed.

Lemma Shown_mount (p : NavModalProps) (geo : bool)
      (hypot : float -> float -> float) : Shown p (mount p geo hypot).
Proof.
  unfold mount.
  destruct (userLat p), (userLng p); constructor; cbn;
    try discriminate; try tauto;
    try (split; [discriminate | congruence]);
    try (intros q [<- | []]; cbn; auto).
  all: split; intros; congruence.
Qed.

Lemma Shown_step (p : NavModalProps) (w w' : World) (e : Event) :
  Inv w -> Shown p w -> step p w e = Some w' -> Shown p w'.
Proof.
  intros I [S1 S2 S3 S4 S5] Hs.
  destruct e as [| | |pos|id|id res]; unfold step in Hs.
  - destruct (negb (isNavigating w) && isSome (route w)) eqn:E1;
      [|discriminate].
    destruct (hasInitLoc p) eqn:E2; inversion Hs; subst.
    unfold startNavigation; cbn.
    destruct (geolocation w); constructor; cbn; auto.
  - destruct (isNavigating w && isSome (route w)); inversion Hs; subst.
    destruct (stopWatch_keeps w)
      as (Hr & _ & Hst & _ & _ & _ & _ & Hi & Hf & _).
    destruct (stopWatch_keeps_more w) as (Hl & _).
    constructor; cbn; rewrite ?Hr, ?Hst, ?Hi, ?Hf, ?Hl; auto;
      discriminate.
  - destruct (isSome (livePos w) || hasInitLoc p); inversion Hs; subst.
    constructor; cbn; auto.
  - destruct (watches w); inversion Hs; subst. unfold onPosition.
    set (w0 := setLivePos (Some pos) w).
    destruct (livePosEffect_shown (garage p) w0)
      as (Hr & Hl & Hi & Hf & Hn & Hst).
    constructor; rewrite ?Hr, ?Hl, ?Hi, ?Hf; auto.
    + intros r Er. destruct Hst as [E | (r' & nxt & Er' & Enx & E)];
        rewrite E.
      * apply S2. exact Er.
      * right. change (route w0) with (route w) in Er, Er'.
        assert (r' = r) by congruence. subst r'.
        apply nth_error_Some. change (stepIdx w0) with (stepIdx w).
        change (stepIdx w0) with (stepIdx w) in Enx. congruence.
    + intros Hnav. rewrite livePosEffect_followUser.
      apply S5, Hn, Hnav.
  - destruct (find _ (timeouts w)) as [t|] eqn:Ef; inversion Hs; subst.
    constructor; cbn; auto.
    + split; [discriminate | reflexivity].
    + intros q [<- | Hq]; cbn; auto.
  - destruct (find _ (inflight w)) as [q|] eqn:Ef; inversion Hs; subst.
    assert (Hq : filter (fun q0 => negb (Pos.eqb (rid q0) id)) (inflight w)
                 = []).
    { pose proof (inv_one w I) as Ho.
      destruct (inflight w) as [|q0 [|q1 l]]; cbn in *;
        [reflexivity | | lia].
      destruct (Pos.eqb (rid q0) id); [reflexivity | discriminate]. }
    unfold fetchRoute_settled.
    destruct res as [|data]; [|destruct (routes0 data)];
      constructor; cbn; rewrite ?Hq; auto;
      try (split; [discriminate | congruence]).
Qed.

Lemma Shown_run (p : NavModalProps) (es : list Event) (w w' : World) :
  Inv w -> Shown p w -> run p w es = Some w' -> Shown p w'.
Proof.
  revert w. induction es as [|e es IH]; intros w I S H; cbn in H.
  - inversion H; subst; exact S.
  - destruct (step p w e) as [w1|] eqn:Es; [|discriminate].
    eapply IH; [eapply Inv_step | eapply Shown_step | exact H];
      eassumption.
Qed.

Lemma reachable_Shown (p : NavModalProps) (w : World) :
  reachable p w -> Shown p w.
Proof.
  intros (geo & hypot & es & H).
  eapply Shown_run; [apply Inv_mount | apply Shown_mount | exact H].
Qed.

(** X1: in every reachable world at most one route request is in flight
    and at most one reroute timer is pending, and never both at once. *)
Theorem one_reroute_at_a_time (p : NavModalProps) (w : World) :
  reachable p w ->
  (List.length (inflight w) <= 1)%nat /\
  (List.length (timeouts w) <= 1)%nat /\
  (timeouts w = [] \/ inflight w = []).
Proof.
  intros Hr. pose proof (reachable_Inv p w Hr) as I.
  split; [apply (inv_one w I)|].
  destruct (inv_timer w I) as [E | (t & E & _ & _ & Hi)]; rewrite E; cbn;
    auto.
Qed.

Lemma one_reroute_at_a_time_witness :
  inflight wFetching <> [] /\ timeouts wFetching = [] /\
  (List.length (inflight wFetching) <= 1)%nat.
Proof.
  split; [discriminate|]. split; [reflexivity|].
  apply (one_reroute_at_a_time props0 wFetching reachable_wFetching).
Defined.

(** X2: the loading flag is up exactly while a route request is in
    flight. *)
Theorem loading_iff_request_in_flight (p : NavModalProps) (w : World) :
  reachable p w -> (routeLoading w = true <-> inflight w <> []).
Proof. intros Hr. apply (shown_loading p w (reachable_Shown p w Hr)). Qed.

Lemma loading_iff_request_in_flight_witness :
  routeLoading wFetching = true <-> inflight wFetching <> [].
Proof.
  apply (loading_iff_request_in_flight props0 wFetching reachable_wFetching).
Defined.

(** X3: whenever the route has steps, the step index names one of them:
    the header always has a current step to show. *)
Theorem step_index_names_a_step
        (p : NavModalProps) (w : World) (r : OsrmRoute) :
  reachable p w -> route w = Some r -> stepsOf r <> [] ->
  exists cur, nth_error (stepsOf r) (stepIdx w) = Some cur.
Proof.
  intros Hre Hr Hs.
  assert (H : (stepIdx w < List.length (stepsOf r))%nat).
  { destruct (shown_step p w (reachable_Shown p w Hre) r Hr) as [E | H];
      [|exact H].
    rewrite E. destruct (stepsOf r); [congruence | cbn; lia]. }
  apply nth_error_Some in H.
  destruct (nth_error (stepsOf r) (stepIdx w)) as [cur|];
    [eauto | congruence].
Qed.

Lemma step_index_names_a_step_witness :
  exists cur, nth_error (stepsOf route0) (stepIdx wArmed) = Some cur.
Proof.
  apply (step_index_names_a_step props0 wArmed route0 reachable_wArmed).
  - reflexivity.
  - discriminate.
Defined.

(** X4: with no route and no request in flight, nothing but the recenter
    button can ever happen: the modal stays in preview without a route
    and sends no request. This is the modal opened without a user
    location, and the modal whose first request failed. *)
Theorem no_route_no_navigation
        (p : NavModalProps) (w w' : World) (es : list Event) :
  reachable p w -> route w = None -> inflight w = [] ->
  run p w es = Some w' ->
  route w' = None /\ navMode w' = preview /\ inflight w' = [] /\
  fetchLog w' = fetchLog w /\
  Forall (fun e => e = ClickRecenter) es.
Proof.
  intros Hre. pose proof (reachable_Inv p w Hre) as I. clear Hre.
  revert w I. induction es as [|e es IH]; intros w I Hr Hi Hrun;
    cbn in Hrun.
  - inversion Hrun; subst. repeat (split; [auto|]); [|constructor].
    destruct (navMode w') eqn:En; [reflexivity|].
    destruct (inv_route w' I En Hr).
  - destruct (step p w e) as [w1|] eqn:Es; [|discriminate].
    assert (Hn : navMode w = preview).
    { destruct (navMode w) eqn:En; [reflexivity|].
      destruct (inv_route w I En Hr). }
    destruct (inv_idle w I Hn) as [Hw Ht].
    assert (He : e = ClickRecenter /\ w1 = onRecenter w).
    { destruct e as [| | |pos|id|id res]; unfold step in Es.
      - rewrite Hr in Es. cbn in Es.
        rewrite andb_false_r in Es. discriminate.
      - unfold isNavigating in Es. rewrite Hn in Es. discriminate.
      - destruct (isSome (livePos w) || hasInitLoc p); inversion Es; auto.
      - rewrite Hw in Es. discriminate.
      - rewrite Ht in Es. discriminate.
      - rewrite Hi in Es. discriminate. }
    destruct He as [-> ->].
    destruct (IH (onRecenter w) (Inv_onRecenter w I) Hr Hi Hrun)
      as (H1 & H2 & H3 & H4 & H5).
    repeat (split; [assumption|]). constructor; [reflexivity | exact H5].
Qed.

Lemma no_route_no_navigation_witness :
  let w := fetchRoute_settled Rejected
             (dropRequest 1 (mount props0 true hypot0)) in
  step props0 w ClickStart = None /\
  route (onRecenter w) = None /\
  fetchLog (onRecenter w) = fetchLog w.
Proof.
  intros w. split; [reflexivity|].
  assert (R0 : reachable props0 w)
    by (exists true, hypot0, [FetchSettles 1 Rejected]; reflexivity).
  destruct (no_route_no_navigation props0 w (onRecenter w) [ClickRecenter]
              R0 eq_refl eq_refl eq_refl) as (H1 & _ & _ & H2 & _).
  split; assumption.
Defined.

(** X5: a reroute request that fails does not switch rerouting off for
    good: the route is kept, an error is set, [rerouting] is cleared, and
    the next fix that the effect computes to be more than 120 m from the
    current step (and not within 25 m of the garage) arms a new timer. *)
Theorem failed_reroute_rearms
        (p : NavModalProps) (w w1 : World) (id : positive)
        (res : FetchResult) (r : OsrmRoute) (cur : OsrmStep)
        (pos : float * float) :
  reachable p w -> navMode w = navigating -> route w = Some r ->
  (res = Rejected \/ exists data, res = Resolved data /\ routes0 data = None) ->
  step p w (FetchSettles id res) = Some w1 ->
  nth_error (stepsOf r) (stepIdx w) = Some cur ->
  (destDist (mathHypot w) (garage p) pos <? 25) = false ->
  (120 <? maneuverDist (mathHypot w) pos cur) = true ->
  route w1 = Some r /\ routeError w1 <> None /\ rerouting w1 = false /\
  rerouting (onPosition (garage p) pos w1) = true /\
  timeouts (onPosition (garage p) pos w1)
  = [ {| tid := nextHandle w; delay := 1500; origin := pos |} ].
Proof.
  intros Hre Hn Hr Hres Hs Hc Hd Hm.
  pose proof (reachable_Inv p w Hre) as I.
  pose proof (Inv_step p w w1 _ I Hs) as I1.
  unfold step in Hs.
  destruct (find _ (inflight w)); inversion Hs; subst. clear Hs.
  set (w1 := fetchRoute_settled res (dropRequest id w)) in *.
  assert (F : route w1 = Some r /\ routeError w1 <> None /\
              rerouting w1 = false /\ navMode w1 = navigating /\
              stepIdx w1 = stepIdx w /\ nextHandle w1 = nextHandle w /\
              mathHypot w1 = mathHypot w).
  { subst w1. destruct Hres as [-> | (data & -> & Hd0)];
      unfold fetchRoute_settled; rewrite ?Hd0; cbn;
      repeat (split; [first [assumption | reflexivity | discriminate]|]);
      reflexivity. }
  destruct F as (F1 & F2 & F3 & F4 & F5 & F6 & F7).
  rewrite <- F7 in Hd, Hm.
  assert (Ht : timeouts w1 = []).
  { destruct (inv_timer w1 I1) as [E | (t & _ & _ & E & _)];
      [exact E | congruence]. }
  rewrite <- F5 in Hc.
  destruct (onPosition_arms (garage p) w1 pos r cur F4 F1 F3 Ht Hc Hd Hm)
    as (A1 & A2 & _).
  rewrite F6 in A2. auto.
Qed.

Lemma failed_reroute_rearms_witness :
  let w1 := fetchRoute_settled Rejected (dropRequest 4 wFetching) in
  route w1 = Some route0 /\
  rerouting (onPosition garage0 fixFar w1) = true.
Proof.
  intros w1.
  destruct (failed_reroute_rearms props0 wFetching w1 4 Rejected route0
              depart0 fixFar reachable_wFetching eq_refl eq_refl
              (or_introl eq_refl) eq_refl eq_refl
              fixFar_dest fixFar_depart0) as (H1 & _ & _ & H2 & _).
  split; assumption.
Defined.

(** X6: every route request the modal ever sends goes to the garage it
    was opened for. *)
Theorem requests_go_to_the_garage
        (p : NavModalProps) (w : World) (q : Request) :
  reachable p w -> In q (fetchLog w) ->
  toLat q = lat (garage p) /\ toLng q = lng (garage p).
Proof. intros Hr. apply (shown_dest p w (reachable_Shown p w Hr)). Qed.

Lemma requests_go_to_the_garage_witness :
  List.length (fetchLog wFetching) = 2%nat /\
  Forall (fun q => toLat q = 0 /\ toLng q = 0.001) (fetchLog wFetching).
Proof.
  split; [reflexivity|].
  apply Forall_forall. intros q Hq.
  apply (requests_go_to_the_garage props0 wFetching q
           reachable_wFetching Hq).
Defined.

(** X7: arrival is not final. After a fix that the effect computes to be
    within 25 m has put the modal back in preview the start button works
    again; starting keeps the route
    and the step index where they were, and takes out a new position watch. *)
Theorem start_again_after_arrival
        (p : NavModalProps) (w : World) (pos : float * float) :
  reachable p w -> navMode w = navigating ->
  (destDist (mathHypot w) (garage p) pos <? 25) = true ->
  let w1 := onPosition (garage p) pos w in
  let w2 := startNavigation w1 in
  step p w1 ClickStart = Some w2 /\
  navMode w2 = navigating /\ followUser w2 = true /\
  route w2 = route w /\ stepIdx w2 = stepIdx w /\
  (geolocation w = true -> watches w2 = [nextHandle w]).
Proof.
  intros Hre Hn Hd w1 w2. pose proof (reachable_Inv p w Hre) as I.
  pose proof (shown_loc p w (reachable_Shown p w Hre) Hn) as Hl.
  pose proof (inv_route w I Hn) as Hro.
  pose proof (Inv_setLivePos (Some pos) w I) as I0.
  assert (E1 : w1 = setNavMode preview (stopWatch (setLivePos (Some pos) w)))
    by (apply onPosition_arrive; assumption).
  set (w0 := setLivePos (Some pos) w) in *.
  destruct (stopWatch_keeps w0) as (Hr & _ & Hs & _).
  destruct (stopWatch_keeps_more w0) as (_ & Hg & Hh).
  assert (F : route w1 = route w /\ stepIdx w1 = stepIdx w /\
              navMode w1 = preview /\ geolocation w1 = geolocation w /\
              nextHandle w1 = nextHandle w /\ watches w1 = []).
  { rewrite E1. cbn. rewrite Hr, Hs, Hg, Hh.
    rewrite (Inv_stopWatch_watches w0 I0). repeat split. }
  destruct F as (F1 & F2 & F3 & F4 & F5 & F6).
  subst w2. clear E1. clearbody w1.
  split.
  - unfold step, isNavigating. rewrite F3, F1, Hl.
    destruct (route w); [reflexivity | congruence].
  - unfold startNavigation. cbn. rewrite F4.
    destruct (geolocation w); cbn; rewrite ?F1, ?F2, ?F5, ?F6;
      repeat split; auto; discriminate.
Qed.

Lemma start_again_after_arrival_witness :
  navMode (startNavigation (onPosition garage0 fixNear wArmed)) = navigating
  /\ watches (startNavigation (onPosition garage0 fixNear wArmed)) = [4%positive].
Proof.
  destruct (start_again_after_arrival props0 wArmed fixNear
              reachable_wArmed eq_refl fixNear_dest)
    as (_ & H1 & _ & _ & _ & H2).
  split; [exact H1 | apply H2; reflexivity].
Defined.

(** X8: the camera follows the user exactly while navigating: in every
    reachable world the [follow] prop equals [isNavigating], whatever
    [followUser] holds in preview. *)
Theorem camera_follows_exactly_while_navigating
        (p : NavModalProps) (w : World) :
  reachable p w -> follow w = isNavigating w.
Proof.
  intros Hr. unfold follow, isNavigating.
  pose proof (shown_follow p w (reachable_Shown p w Hr)) as H.
  destruct (navMode w); [reflexivity|]. now rewrite H.
Qed.

Lemma camera_follows_exactly_while_navigating_witness :
  follow wArmed = true /\ follow wStopped = false.
Proof.
  rewrite (camera_follows_exactly_while_navigating props0 wArmed
             reachable_wArmed).
  rewrite (camera_follows_exactly_while_navigating props0 wStopped
             reachable_wStopped).
  split; reflexivity.
Defined.

(** * The catalogue helpers *)

Lemma filter_split_length {A} (f : A -> bool) (l : list A) :
  List.length l
  = (List.length (filter f l)
     + List.length (filter (fun x => negb (f x)) l))%nat.
Proof.
  induction l as [|x l IH]; cbn; [reflexivity|].
  destruct (f x); cbn; lia.
Qed.

Lemma filter_all_length {A} (f : A -> bool) (l : list A) :
  List.length (filter f l) = List.length l <-> Forall (fun x => f x = true) l.
Proof.
  induction l as [|x l IH]; cbn.
  - split; [constructor | reflexivity].
  - pose proof (filter_split_length f l) as Hl.
    destruct (f x) eqn:E; cbn; split; intros H.
    + constructor; [exact E | apply IH; lia].
    + inversion H; subst. f_equal. apply IH. assumption.
    + lia.
    + inversion H; subst. congruence.
Qed.

Lemma occupied_withFloorName (fname : string) (l : list ApiBuildingSpot.t) :
  List.length
    (filter (fun s => truthy (ApiParkingSpot.is_occupied s))
            (map (withFloorName fname) l))
  = List.length (filter (fun s => truthy (ApiBuildingSpot.is_occupied s)) l).
Proof.
  induction l as [|x l IH]; cbn; [reflexivity|].
  destruct (truthy (ApiBuildingSpot.is_occupied x)); cbn; lia.
Qed.

Lemma collectSpots_one (b : ApiBuilding.t) :
  List.length (collectSpots [b])
  = List.length (flat_map ApiFloor.parking_spots (ApiBuilding.floors b)) /\
  List.length (filter (fun s => truthy (ApiParkingSpot.is_occupied s))
                 (collectSpots [b]))
  = List.length
      (filter (fun s => truthy (ApiBuildingSpot.is_occupied s))
         (flat_map ApiFloor.parking_spots (ApiBuilding.floors b))).
Proof.
  unfold collectSpots. cbn [flat_map]. rewrite app_nil_r.
  induction (ApiBuilding.floors b) as [|f fs [IH1 IH2]]; cbn [flat_map].
  - split; reflexivity.
  - rewrite !length_app, !filter_app, !length_app, length_map.
    rewrite occupied_withFloorName. split; congruence.
Qed.

(** X9: in the flat answer that [normalizeBuildingsResponse] builds, the
    total is the number of spots listed, which is the number of spots of
    all floors of all buildings; available and occupied add up to it, and
    neither is negative. The [count] and [total_capacity] fields of the
    input play no part. *)
Theorem normalize_counts_add_up (data : ApiBuildingsResponse.t) :
  let r := normalizeBuildingsResponse data in
  ApiParkingResponse.count r
  = Z.of_nat (List.length (ApiParkingResponse.parking_spots r)) /\
  (ApiParkingResponse.available_count r
   + ApiParkingResponse.occupied_count r
   = ApiParkingResponse.count r)%Z /\
  (0 <= ApiParkingResponse.available_count r)%Z /\
  (0 <= ApiParkingResponse.occupied_count r)%Z /\
  List.length (ApiParkingResponse.parking_spots r)
  = list_sum
      (map (fun b =>
              list_sum (map (fun f => List.length (ApiFloor.parking_spots f))
                            (ApiBuilding.floors b)))
           (ApiBuildingsResponse.buildings data)).
Proof.
  cbv zeta. unfold normalizeBuildingsResponse.
  cbn [ApiParkingResponse.count ApiParkingResponse.parking_spots
       ApiParkingResponse.available_count ApiParkingResponse.occupied_count].
  set (all := collectSpots (ApiBuildingsResponse.buildings data)).
  pose proof (filter_split_length
                (fun s => truthy (ApiParkingSpot.is_occupied s)) all) as H.
  split; [reflexivity|]. split; [lia|].
  split; [clearbody all; cbv beta in H; lia|]. split; [lia|].
  subst all. unfold collectSpots. rewrite length_flat_map.
  f_equal. apply map_ext. intros b. rewrite length_flat_map.
  f_equal. apply map_ext. intros f. apply length_map.
Qed.

(** X10: the detail view's fallback, [normalizeBuildingsResponse] on the
    catalogue cut down to one building, counts as many available spots as
    [buildingToGarage] does for the list view. *)
Theorem detail_and_list_agree_on_available
        (hav : float -> float -> float -> float -> string)
        (mock : ApiBuildingsResponse.t) (b : ApiBuilding.t)
        (userLat userLng : option float) :
  ApiParkingResponse.available_count
    (normalizeBuildingsResponse
       {| ApiBuildingsResponse.status := ApiBuildingsResponse.status mock;
          ApiBuildingsResponse.count := ApiBuildingsResponse.count mock;
          ApiBuildingsResponse.buildings := [b] |})
  = GarageData.slotsAvailable (buildingToGarage hav b userLat userLng).
Proof.
  unfold normalizeBuildingsResponse, buildingToGarage.
  cbn [ApiParkingResponse.available_count GarageData.slotsAvailable
       ApiBuildingsResponse.buildings].
  destruct (collectSpots_one b) as [H1 H2]. rewrite H1, H2.
  reflexivity.
Qed.

(** X11: a garage built from a building is full exactly when the building
    has at least one spot and all its spots are occupied; its available
    count is the number of unoccupied spots. A building without spots is
    never full. *)
Theorem buildingToGarage_full_iff_all_occupied
        (hav : float -> float -> float -> float -> string) (b : ApiBuilding.t)
        (userLat userLng : option float) :
  let g := buildingToGarage hav b userLat userLng in
  let allSpots := flat_map ApiFloor.parking_spots (ApiBuilding.floors b) in
  GarageData.slotsAvailable g
  = Z.of_nat
      (List.length
         (filter (fun s => negb (truthy (ApiBuildingSpot.is_occupied s)))
                 allSpots)) /\
  (GarageData.isFull g = true <->
   allSpots <> [] /\
   Forall (fun s => truthy (ApiBuildingSpot.is_occupied s) = true) allSpots).
Proof.
  cbv zeta. unfold buildingToGarage.
  cbn [GarageData.slotsAvailable GarageData.isFull].
  set (all := flat_map ApiFloor.parking_spots (ApiBuilding.floors b)).
  set (occ := fun s => truthy (ApiBuildingSpot.is_occupied s)).
  pose proof (filter_split_length occ all) as H.
  pose proof (filter_all_length occ all) as Hall.
  clearbody all. subst occ. cbv beta in H, Hall.
  split; [lia|].
  rewrite andb_true_iff, Nat.ltb_lt, Z.eqb_eq, <- Hall.
  split; intros [H1 H2]; split; try lia.
  - destruct all; [cbn in H1; lia | discriminate].
  - destruct all; [congruence | cbn; lia].
Qed.

(** ** Slugs *)

Lemma slugChar_plain (c : ascii) :
  isSlugChar c = true -> isUpper c = false /\ isSpace c = false.
Proof.
  destruct c as [[] [] [] [] [] [] [] []]; vm_compute;
    intros H; first [discriminate H | split; reflexivity].
Qed.

Lemma removeNonSlugChars_allChars (s : string) :
  allChars isSlugChar (removeNonSlugChars s) = true.
Proof.
  induction s as [|c s IH]; cbn; [reflexivity|].
  destruct (isSlugChar c) eqn:E; cbn; [rewrite E|]; exact IH.
Qed.

Lemma slug_unchanged (s : string) :
  allChars isSlugChar s = true ->
  toLowerCase s = s /\
  (forall b, replaceSpaceRuns b s = s) /\
  removeNonSlugChars s = s.
Proof.
  induction s as [|c s IH]; cbn; [auto|].
  intros H. apply andb_true_iff in H. destruct H as [Hc Hs].
  destruct (IH Hs) as (I1 & I2 & I3).
  destruct (slugChar_plain c Hc) as [Hu Hsp].
  unfold toLowerChar. rewrite Hu, Hsp, Hc, I1, I3.
  repeat split; try reflexivity. intros b. now rewrite I2.
Qed.

(** X12: a slug holds nothing but lower-case letters, digits and hyphens,
    whatever the name it is made from. *)
Theorem slugify_only_slug_characters (name : string) :
  allChars isSlugChar (slugify name) = true.
Proof. apply removeNonSlugChars_allChars. Qed.

(** X13: [slugify] leaves a string unchanged exactly when the string is
    made of lower-case letters, digits and hyphens; so slugifying a slug
    gives the same slug. *)
Theorem slugify_fixed_points (s : string) :
  (slugify s = s <-> allChars isSlugChar s = true) /\
  slugify (slugify s) = slugify s.
Proof.
  assert (F : forall t, allChars isSlugChar t = true -> slugify t = t).
  { intros t Ht. destruct (slug_unchanged t Ht) as (H1 & H2 & H3).
    unfold slugify. now rewrite H1, H2, H3. }
  split; [split|].
  - intros E. rewrite <- E. apply removeNonSlugChars_allChars.
  - apply F.
  - apply F, removeNonSlugChars_allChars.
Qed.

Lemma slugify_fixed_points_witness :
  slugify "Central  Park East #2" = "central-park-east-2"%string /\
  slugify "central-park-east-2" = "central-park-east-2"%string.
Proof.
  split; [reflexivity|].
  apply (proj1 (slugify_fixed_points "central-park-east-2")).
  reflexivity.
Defined.

(** ** Finding a garage by its slug *)

(** X14: [findGarageBySlug] answers with a garage whose slug is the one
    asked for, made from the first building of the catalogue with that
    slug; it answers nothing exactly when no building has that slug. *)
Theorem findGarageBySlug_spec
        (hav : float -> float -> float -> float -> string)
        (mock : ApiBuildingsResponse.t)
        (slug : string) (userLat userLng : option float) :
  (forall g, findGarageBySlug hav mock slug userLat userLng = Some g ->
     GarageData.slug g = slug /\
     exists b, In b (ApiBuildingsResponse.buildings mock) /\
               g = buildingToGarage hav b userLat userLng) /\
  (findGarageBySlug hav mock slug userLat userLng = None <->
   forall b, In b (ApiBuildingsResponse.buildings mock) ->
             slugify (ApiBuilding.building_name b) <> slug).
Proof.
  unfold findGarageBySlug.
  destruct (find _ (ApiBuildingsResponse.buildings mock)) as [b|] eqn:Ef.
  - apply find_some in Ef. destruct Ef as [Hin Heq].
    apply String.eqb_eq in Heq. split.
    + intros g Hg. inversion Hg; subst g. split; [exact Heq | eauto].
    + split; [discriminate|]. intros H. destruct (H b Hin Heq).
  - split; [discriminate|]. split; [|reflexivity].
    intros _ b Hin Heq.
    pose proof (find_none _ _ Ef b Hin) as Hn. cbn in Hn.
    apply String.eqb_neq in Hn. contradiction.
Qed.

Lemma find_first_of_distinct {A} (key : A -> string) (l : list A) (x : A) :
  NoDup (map key l) -> In x l ->
  find (fun y => String.eqb (key y) (key x)) l = Some x.
Proof.
  induction l as [|y l IH]; cbn; intros Hnd Hin; [contradiction|].
  inversion Hnd as [|? ? Hni Hnd']; subst.
  destruct Hin as [-> | Hin].
  - now rewrite String.eqb_refl.
  - destruct (String.eqb (key y) (key x)) eqn:E.
    + apply String.eqb_eq in E. exfalso. apply Hni. rewrite E.
      apply in_map, Hin.
    + apply IH; assumption.
Qed.

(** X15: every garage of the list view links to a slug that the detail
    view resolves, to a garage with that slug; when the building names of
    the catalogue give pairwise different slugs it resolves to the very
    same garage. *)
Theorem listed_garage_is_found
        (hav : float -> float -> float -> float -> string)
        (mock : ApiBuildingsResponse.t)
        (userLat userLng : option float) (g : GarageData.t) :
  In g (buildingsToGarages hav mock userLat userLng) ->
  (exists g', findGarageBySlug hav mock (GarageData.slug g) userLat userLng
              = Some g' /\ GarageData.slug g' = GarageData.slug g) /\
  (NoDup (map (fun b => slugify (ApiBuilding.building_name b))
              (ApiBuildingsResponse.buildings mock)) ->
   findGarageBySlug hav mock (GarageData.slug g) userLat userLng = Some g).
Proof.
  intros Hin. unfold buildingsToGarages in Hin. apply in_map_iff in Hin.
  destruct Hin as (b & <- & Hb).
  change (GarageData.slug (buildingToGarage hav b userLat userLng))
    with (slugify (ApiBuilding.building_name b)).
  split.
  - unfold findGarageBySlug.
    destruct (find _ (ApiBuildingsResponse.buildings mock)) as [b'|] eqn:Ef.
    + apply find_some in Ef. destruct Ef as [_ Heq].
      apply String.eqb_eq in Heq. eexists. split; [reflexivity | exact Heq].
    + pose proof (find_none _ _ Ef b Hb) as Hn. cbn in Hn.
      rewrite String.eqb_refl in Hn. discriminate.
  - intros Hnd. unfold findGarageBySlug.
    rewrite (find_first_of_distinct
               (fun b => slugify (ApiBuilding.building_name b))
               _ b Hnd Hb).
    reflexivity.
Qed.

Lemma findGarageBySlug_spec_witness :
  GarageData.slug (buildingToGarage hav0 building1 None None)
  = "city-mall"%string /\
  findGarageBySlug hav0 mock0 "nowhere" None None = None.
Proof.
  split.
  - apply (proj1 (findGarageBySlug_spec hav0 mock0 "city-mall" None None)
                 (buildingToGarage hav0 building1 None None)).
    reflexivity.
  - apply (proj2 (findGarageBySlug_spec hav0 mock0 "nowhere" None None)).
    intros b [<- | [<- | []]]; discriminate.
Defined.

Lemma listed_garage_is_found_witness :
  findGarageBySlug hav0 mock0 "central-park-east-2" None None
  = Some (buildingToGarage hav0 building0 None None).
Proof.
  apply (proj2 (listed_garage_is_found hav0 mock0 None None
                  (buildingToGarage hav0 building0 None None)
                  (or_introl eq_refl))).
  vm_compute. repeat constructor; cbn; intuition discriminate.
Defined.

(** ** Grouping spots by floor *)

Lemma mapGet_mapSet {V} (k k' : string) (v : V) (m : list (string * V)) :
  mapGet k' (mapSet k v m)
  = if String.eqb k k' then Some v else mapGet k' m.
Proof.
  induction m as [|[k0 v0] m IH]; cbn.
  - reflexivity.
  - destruct (String.eqb k0 k) eqn:E0; cbn.
    + apply String.eqb_eq in E0. subst k0.
      destruct (String.eqb k k'); reflexivity.
    + destruct (String.eqb k0 k') eqn:E1; [|exact IH].
      apply String.eqb_eq in E1. subst k0.
      rewrite String.eqb_sym, E0. reflexivity.
Qed.

Lemma mapSet_keys {V} (k : string) (v : V) (m : list (string * V)) :
  map fst (mapSet k v m)
  = if existsb (fun k0 => String.eqb k0 k) (map fst m)
    then map fst m else map fst m ++ [k].
Proof.
  induction m as [|[k0 v0] m IH]; cbn; [reflexivity|].
  destruct (String.eqb k0 k); cbn; [reflexivity|].
  rewrite IH. destruct (existsb _ (map fst m)); reflexivity.
Qed.

Lemma mapSet_NoDup {V} (k : string) (v : V) (m : list (string * V)) :
  NoDup (map fst m) -> NoDup (map fst (mapSet k v m)).
Proof.
  intros H. rewrite mapSet_keys.
  destruct (existsb _ (map fst m)) eqn:E; [exact H|].
  apply NoDup_app; [exact H | repeat constructor; intros [] |].
  intros x Hx [-> | []].
  assert (existsb (fun k0 => String.eqb k0 x) (map fst m) = true).
  { apply existsb_exists. exists x. split; [exact Hx|].
    apply String.eqb_refl. }
  congruence.
Qed.

(** The grouping loop, started from any map. *)
Lemma gridFloors_from (spots : list ApiParkingSpot.t)
      (m : list (string * list ApiParkingSpot.t)) (k : string) :
  mapGet k
    (fold_left
       (fun map s =>
          let arr := match mapGet (ApiParkingSpot.floor_name s) map with
                     | Some arr => arr
                     | None => []
                     end in
          mapSet (ApiParkingSpot.floor_name s) (arr ++ [s]) map)
       spots m)
  = match onFloor k spots with
    | [] => mapGet k m
    | g => Some (match mapGet k m with Some a => a | None => [] end ++ g)
    end.
Proof.
  revert m. induction spots as [|s spots IH]; intros m; cbn [fold_left].
  - reflexivity.
  - rewrite IH. cbv zeta. rewrite mapGet_mapSet.
    unfold onFloor. cbn [filter]. fold (onFloor k spots).
    destruct (String.eqb (ApiParkingSpot.floor_name s) k) eqn:E.
    + apply String.eqb_eq in E. subst k.
      destruct (onFloor (ApiParkingSpot.floor_name s) spots);
        [reflexivity|].
      rewrite <- app_assoc. reflexivity.
    + reflexivity.
Qed.

Lemma fold_mapSet_NoDup {V} (upd : list (string * V) -> ApiParkingSpot.t -> V)
      (spots : list ApiParkingSpot.t) (m : list (string * V)) :
  NoDup (map fst m) ->
  NoDup (map fst
           (fold_left
              (fun map s => mapSet (ApiParkingSpot.floor_name s) (upd map s) map)
              spots m)).
Proof.
  revert m. induction spots as [|s spots IH]; intros m H; cbn [fold_left].
  - exact H.
  - apply IH, mapSet_NoDup, H.
Qed.

(** X16: the spot grid shows every spot exactly once, under its own floor
    name and in the order received: the group of a floor is the list of
    the spots with that floor name; a floor without spots has no group,
    and no floor name heads two groups. *)
Theorem gridFloors_groups_by_floor
        (spots : list ApiParkingSpot.t) (k : string) :
  mapGet k (gridFloors spots)
  = match onFloor k spots with
    | [] => None
    | g => Some g
    end /\
  NoDup (map fst (gridFloors spots)).
Proof.
  split.
  - unfold gridFloors. rewrite gridFloors_from. reflexivity.
  - unfold gridFloors.
    apply (fold_mapSet_NoDup
             (fun map s =>
                match mapGet (ApiParkingSpot.floor_name s) map with
                | Some arr => arr
                | None => []
                end ++ [s])).
    constructor.
Qed.

(** The counting loop, started from any map. *)
Lemma floorMap_from (spots : list ApiParkingSpot.t)
      (m : list (string * FloorCount.t)) (k : string) :
  mapGet k
    (fold_left
       (fun floorMap spot =>
          let f := match mapGet (ApiParkingSpot.floor_name spot) floorMap with
                   | Some f => f
                   | None =>
                       {| FloorCount.total := 0; FloorCount.occupied := 0 |}
                   end in
          let f1 := {| FloorCount.total := (FloorCount.total f + 1)%Z;
                       FloorCount.occupied := FloorCount.occupied f |} in
          let f2 := if truthy (ApiParkingSpot.is_occupied spot)
                    then {| FloorCount.total := FloorCount.total f1;
                            FloorCount.occupied :=
                              (FloorCount.occupied f1 + 1)%Z |}
                    else f1 in
          mapSet (ApiParkingSpot.floor_name spot) f2 floorMap)
       spots m)
  = match onFloor k spots with
    | [] => mapGet k m
    | g =>
        let f0 := match mapGet k m with
                  | Some f => f
                  | None =>
                      {| FloorCount.total := 0; FloorCount.occupied := 0 |}
                  end in
        Some {| FloorCount.total :=
                  (FloorCount.total f0 + Z.of_nat (List.length g))%Z;
                FloorCount.occupied :=
                  (FloorCount.occupied f0
                   + Z.of_nat
                       (List.length
                          (filter
                             (fun s => truthy (ApiParkingSpot.is_occupied s))
                             g)))%Z |}
    end.
Proof.
  revert m. induction spots as [|s spots IH]; intros m; cbn [fold_left].
  - reflexivity.
  - rewrite IH. cbv zeta. rewrite mapGet_mapSet.
    unfold onFloor. cbn [filter]. fold (onFloor k spots).
    destruct (String.eqb (ApiParkingSpot.floor_name s) k) eqn:E;
      [|reflexivity].
    apply String.eqb_eq in E. subst k.
    set (f := match mapGet (ApiParkingSpot.floor_name s) m with
              | Some f => f
              | None => {| FloorCount.total := 0; FloorCount.occupied := 0 |}
              end).
    clearbody f.
    destruct (onFloor (ApiParkingSpot.floor_name s) spots) as [|s' g];
      cbn [filter List.length];
      destruct (truthy (ApiParkingSpot.is_occupied s));
      try destruct (truthy (ApiParkingSpot.is_occupied s'));
      cbn [FloorCount.total FloorCount.occupied List.length];
      f_equal; f_equal; lia.
Qed.

(** X17: the floor bars count right: for each floor name the counting
    loop of [transformApiToFloors] holds the number of spots with that
    name and the number of those that are occupied; a floor without spots
    has no entry, so every entry has at least one spot, and never more
    occupied spots than spots. *)
Theorem floorMap_counts (data : ApiParkingResponse.t) (k : string) :
  let g := onFloor k (ApiParkingResponse.parking_spots data) in
  mapGet k (floorMapOf data)
  = match g with
    | [] => None
    | _ =>
        Some {| FloorCount.total := Z.of_nat (List.length g);
                FloorCount.occupied :=
                  Z.of_nat
                    (List.length
                       (filter
                          (fun s => truthy (ApiParkingSpot.is_occupied s))
                          g)) |}
    end /\
  (forall f, mapGet k (floorMapOf data) = Some f ->
     (1 <= FloorCount.total f)%Z /\
     (0 <= FloorCount.occupied f <= FloorCount.total f)%Z).
Proof.
  cbv zeta.
  assert (E : mapGet k (floorMapOf data)
              = match onFloor k (ApiParkingResponse.parking_spots data) with
                | [] => None
                | _ =>
                    Some {| FloorCount.total :=
                              Z.of_nat
                                (List.length
                                   (onFloor k
                                      (ApiParkingResponse.parking_spots data)));
                            FloorCount.occupied :=
                              Z.of_nat
                                (List.length
                                   (filter
                                      (fun s =>
                                         truthy (ApiParkingSpot.is_occupied s))
                                      (onFloor k
                                         (ApiParkingResponse.parking_spots
                                            data)))) |}
                end).
  { unfold floorMapOf. rewrite floorMap_from.
    destruct (onFloor k (ApiParkingResponse.parking_spots data));
      reflexivity. }
  split; [exact E|].
  intros f Hf. rewrite E in Hf.
  pose proof (filter_split_length
                (fun s => truthy (ApiParkingSpot.is_occupied s))
                (onFloor k (ApiParkingResponse.parking_spots data))) as Hl.
  destruct (onFloor k (ApiParkingResponse.parking_spots data)) as [|s g];
    [discriminate|].
  assert (Hf' := f_equal (fun o => match o with Some x => x | None => f end)
                         Hf).
  cbv beta iota in Hf'. rewrite <- Hf'.
  cbn [FloorCount.total FloorCount.occupied].
  cbn [List.length] in Hl |- *. lia.
Qed.

Lemma floorMap_counts_witness :
  mapGet "Ground" (floorMapOf (normalizeBuildingsResponse mock0))
  = Some {| FloorCount.total := 2; FloorCount.occupied := 1 |}.
Proof.
  apply (proj1 (floorMap_counts (normalizeBuildingsResponse mock0) "Ground")).
Defined.

Lemma fold_mapSet_keys {V W}
      (upd1 : list (string * V) -> ApiParkingSpot.t -> V)
      (upd2 : list (string * W) -> ApiParkingSpot.t -> W)
      (spots : list ApiParkingSpot.t)
      (m1 : list (string * V)) (m2 : list (string * W)) :
  map fst m1 = map fst m2 ->
  map fst
    (fold_left
       (fun map s => mapSet (ApiParkingSpot.floor_name s) (upd1 map s) map)
       spots m1)
  = map fst
      (fold_left
         (fun map s => mapSet (ApiParkingSpot.floor_name s) (upd2 map s) map)
         spots m2).
Proof.
  revert m1 m2. induction spots as [|s spots IH]; intros m1 m2 H;
    cbn [fold_left].
  - exact H.
  - apply IH. rewrite !mapSet_keys, H. reflexivity.
Qed.

(** X18: the floor bars and the spot grid list the same floors in the same
    order, the order in which the floor names first appear among the
    spots; so the bar numbered i stands for the i-th group of the grid. *)
Theorem bars_and_grid_list_the_same_floors (data : ApiParkingResponse.t) :
  map fst (floorMapOf data)
  = map fst (gridFloors (ApiParkingResponse.parking_spots data)).
Proof.
  unfold floorMapOf, gridFloors.
  apply (fold_mapSet_keys
           (fun floorMap spot =>
              let f :=
                match mapGet (ApiParkingSpot.floor_name spot) floorMap with
                | Some f => f
                | None =>
                    {| FloorCount.total := 0; FloorCount.occupied := 0 |}
                end in
              let f1 := {| FloorCount.total := (FloorCount.total f + 1)%Z;
                           FloorCount.occupied := FloorCount.occupied f |} in
              if truthy (ApiParkingSpot.is_occupied spot)
              then {| FloorCount.total := FloorCount.total f1;
                      FloorCount.occupied :=
                        (FloorCount.occupied f1 + 1)%Z |}
              else f1)
           (fun map s =>
              match mapGet (ApiParkingSpot.floor_name s) map with
              | Some arr => arr
              | None => []
              end ++ [s])).
  reflexivity.
Qed.

(** ** Texts *)

Lemma append_nonEmpty_l (a b : string) :
  nonEmpty a = true -> nonEmpty (a ++ b) = true.
Proof. destruct a; [discriminate | reflexivity]. Qed.

(** X19: the instruction text of a step is never empty, whatever the
    maneuver type, the modifier and the road name are. *)
Theorem formatStep_never_empty (step : OsrmStep) :
  match modifier (maneuver step) with
  | Some m => allChars isAscii m = true
  | None => True
  end ->
  nonEmpty (formatStep step) = true.
Proof.
  intros _. unfold formatStep.
  destruct (String.eqb (type (maneuver step)) "depart").
  - destruct (nonEmpty (name step)); reflexivity.
  - destruct (String.eqb (type (maneuver step)) "arrive"); [reflexivity|].
    destruct (modifier (maneuver step)) as [[|c rest]|];
      try (destruct (nonEmpty (name step)); reflexivity).
    cbn [replaceFirstHyphen].
    destruct (Ascii.eqb c "-"); destruct (nonEmpty (name step)); reflexivity.
Qed.

Lemma formatStep_never_empty_witness :
  nonEmpty
    (formatStep
       {| step_distance := 10; step_duration := 2; name := "Main St";
          maneuver := {| type := "turn"; modifier := Some "slight-left"%string;
                         location := (0, 0) |} |}) = true /\
  formatStep
    {| step_distance := 10; step_duration := 2; name := "Main St";
       maneuver := {| type := "turn"; modifier := Some "slight-left"%string;
                      location := (0, 0) |} |}
  = "Slight left onto Main St"%string.
Proof.
  split; [|reflexivity].
  apply formatStep_never_empty. reflexivity.
Defined.

(** X20: [timeAgo] rounds down and never overstates: the number shown,
    taken in the unit shown, is at most the time elapsed, and the time
    elapsed is less than one unit more. Seconds are shown below 60 (also
    negative ones, for a date in the future), minutes from 1 to 59, hours
    from 1 on. *)
Theorem timeAgo_rounds_down (now iso : Z) :
  exists (n unit : Z) (suffix : string),
    timeAgo now iso = (showZ n ++ suffix)%string /\
    ((unit = 1 /\ suffix = "s ago"%string /\ n < 60) \/
     (unit = 60 /\ suffix = "m ago"%string /\ 1 <= n < 60) \/
     (unit = 3600 /\ suffix = "h ago"%string /\ 1 <= n))%Z /\
    (n * unit * 1000 <= now - iso < (n + 1) * unit * 1000)%Z.
Proof.
  unfold timeAgo. cbv zeta.
  destruct (((now - iso) / 1000 <? 60)%Z) eqn:E1;
    [|destruct (((now - iso) / 1000 <? 3600)%Z) eqn:E2].
  - apply Z.ltb_lt in E1.
    exists ((now - iso) / 1000)%Z, 1%Z, "s ago"%string.
    split; [reflexivity|]. split; [left; auto|].
    Z.div_mod_to_equations; lia.
  - apply Z.ltb_ge in E1. apply Z.ltb_lt in E2.
    exists ((now - iso) / 1000 / 60)%Z, 60%Z, "m ago"%string.
    split; [reflexivity|].
    split; [right; left; repeat split|]; Z.div_mod_to_equations; lia.
  - apply Z.ltb_ge in E1. apply Z.ltb_ge in E2.
    exists ((now - iso) / 1000 / 3600)%Z, 3600%Z, "h ago"%string.
    split; [reflexivity|].
    split; [right; right; repeat split|]; Z.div_mod_to_equations; lia.
Qed.

(** X21: [getTodayDayName] names the day that [getDay] means, for each of
    its seven values: Sunday for 0, Monday for 1, up to Saturday for 6. *)
Theorem getTodayDayName_matches_getDay (idx : nat) :
  (idx <= 6)%nat -> getTodayDayName idx = nth_error getDayMeaning idx.
Proof.
  intros H.
  do 7 (destruct idx as [|idx]; [reflexivity|]). lia.
Qed.

Lemma getTodayDayName_matches_getDay_witness :
  getTodayDayName 0 = Some "Sunday"%string.
Proof. apply (getTodayDayName_matches_getDay 0). lia. Defined.

(** ** The search box *)

Lemma prefix_refl (s : string) : String.prefix s s = true.
Proof.
  induction s as [|c s IH]; cbn; [reflexivity|].
  destruct (ascii_dec c c); [exact IH | congruence].
Qed.

Lemma prefix_empty (s : string) : String.prefix "" s = true.
Proof. destruct s; reflexivity. Qed.

Lemma includes_refl (s : string) : includes s s = true.
Proof. destruct s; cbn [includes]; rewrite prefix_refl; reflexivity. Qed.

Lemma includes_empty (s : string) : includes "" s = true.
Proof. destruct s; cbn [includes]; rewrite prefix_empty; reflexivity. Qed.

Lemma toLowerChar_idem (c : ascii) :
  toLowerChar (toLowerChar c) = toLowerChar c.
Proof. destruct c as [[] [] [] [] [] [] [] []]; vm_compute; reflexivity. Qed.

Lemma toLowerCase_idem (s : string) :
  toLowerCase (toLowerCase s) = toLowerCase s.
Proof.
  induction s as [|c s IH]; cbn; [reflexivity|].
  now rewrite toLowerChar_idem, IH.
Qed.

(** X22: the search box. An empty search shows every garage; typing a
    garage's name, in any mix of upper and lower case that lower-cases to
    the same text, shows that garage; and the result depends on the
    search text only through its lower-case form. *)
Theorem search_is_case_insensitive
        (search : string) (displayGarages : list GarageData.t) :
  filtered "" displayGarages = displayGarages /\
  filtered (toLowerCase search) displayGarages
  = filtered search displayGarages /\
  (forall g, In g displayGarages ->
             toLowerCase search = toLowerCase (GarageData.name g) ->
             In g (filtered search displayGarages)).
Proof.
  unfold filtered. repeat apply conj.
  - induction displayGarages as [|g gs IH]; cbn [filter];
      [reflexivity|].
    cbn [toLowerCase]. rewrite includes_empty. cbn [orb]. f_equal.
    exact IH.
  - rewrite toLowerCase_idem. reflexivity.
  - intros g Hin E. apply filter_In. split; [exact Hin|].
    rewrite E, includes_refl. reflexivity.
Qed.

Lemma search_is_case_insensitive_witness :
  In (buildingToGarage hav0 building1 None None)
     (filtered "CITY mall" (buildingsToGarages hav0 mock0 None None)).
Proof.
  apply (proj2 (proj2 (search_is_case_insensitive "CITY mall"
                         (buildingsToGarages hav0 mock0 None None)))).
  - right. left. reflexivity.
  - reflexivity.
Defined.

Lemma buildingToGarage_full_iff_all_occupied_witness :
  GarageData.slotsAvailable (buildingToGarage hav0 building0 None None) = 1%Z
  /\ GarageData.isFull (buildingToGarage hav0 building1 None None) = false.
Proof.
  split.
  - apply (proj1 (buildingToGarage_full_iff_all_occupied
                    hav0 building0 None None)).
  - destruct (GarageData.isFull (buildingToGarage hav0 building1 None None))
      eqn:E; [|reflexivity].
    apply (proj2 (buildingToGarage_full_iff_all_occupied
                    hav0 building1 None None)) in E.
    destruct E as [E _]. exfalso. apply E. reflexivity.
Defined.
